(** * Distributed MD5 cracker: the coordinator (server.py)

    A shallow embedding of [server.py] and the properties of its work
    partitioning, reclaim, found flag, stop broadcast and line framing.

    The module-level variables of the server ([current_number], [found],
    [found_number], [clients], [assigned_work]) form one record, [globals].
    Every [with lock:] region of the source is a function on [globals]; a
    run of the whole server is a sequence of such regions, in the order in
    which the lock was taken. *)

From stdpp Require Import gmap list strings pretty.
From Stdlib Require Import ZArith NArith Lia.
From Stdlib.Strings Require Byte.

Local Open Scope Z_scope.
Local Set Warnings "-register-all".

(** ** Python values *)

(** A Python [str]: a sequence of Unicode code points. *)
Definition str : Type := list N.

(** An ASCII literal of the source, as a [str]. *)
Definition lit (s : string) : str :=
  map Ascii.N_of_ascii (String.list_ascii_of_string s).

(** The values [json.loads] builds, except floats. Every statement below is
    about messages and core counts without floats. On a float core count
    (1.5, -1.5, NaN) lines 72-81 compute in floating point and the cursor
    becomes a float: that arithmetic is not part of this development, and
    the properties of the allocation are stated for integer core counts. *)
Inductive pyval : Type :=
| PNone
| PBool (b : bool)
| PInt (z : Z)
| PStr (s : str)
| PList (l : list pyval)
| PDict (kv : list (str * pyval)).

(** The exceptions the handler can meet. *)
Inductive exn : Type :=
| KeyError (key : str)
| TypeError
| UnicodeDecodeError
| UnicodeEncodeError
| LoadsError.

(** [d[key]] on a dict built by [json.loads] (keys are strings). *)
Fixpoint dict_get (kv : list (str * pyval)) (key : str) : option pyval :=
  match kv with
  | [] => None
  | (k, v) :: kv' => if bool_decide (k = key) then Some v else dict_get kv' key
  end.

(** [message[key]]: only a dict can be subscripted by a string; a missing
    key raises [KeyError], every other value raises [TypeError]. *)
Definition getitem (message : pyval) (key : str) : exn + pyval :=
  match message with
  | PDict kv =>
      match dict_get kv key with
      | Some v => inr v
      | None => inl (KeyError key)
      end
  | _ => inl TypeError
  end.

(** [v == 'literal'] *)
Definition eq_lit (v : pyval) (s : string) : bool :=
  match v with
  | PStr t => bool_decide (t = lit s)
  | _ => false
  end.

(** The integer a value stands for in [BLOCK_SIZE_PER_CORE * client_cores]
    followed by [current_number + block_size - 1] (lines 72 and 74): an
    [int] is itself and a [bool] is 0 or 1; [None] and a dict are rejected
    by [*], a [str] or list is repeated by [*] and rejected by [+]. In all
    the rejected cases [TypeError] is raised before anything is assigned.
    (These are all the values of [pyval]; a float is none of them.) *)
Definition as_int (v : pyval) : option Z :=
  match v with
  | PInt c => Some c
  | PBool b => Some (Z.b2z b)
  | _ => None
  end.

Definition in_range (lo hi b : N) : bool := ((lo <=? b) && (b <=? hi))%N.

(** Whether [print] can write a line into which [v] is formatted (lines 58
    and 103), standard output being UTF-8. A [str] goes into the line as it
    is, and a lone surrogate in it makes [print] raise
    [UnicodeEncodeError]; every other value is formatted by its [repr],
    which escapes what cannot be written. *)
Definition print_ok (v : pyval) : bool :=
  match v with
  | PStr s => forallb (fun ch => negb (in_range 0xD800 0xDFFF ch)) s
  | _ => true
  end.

(** ** Constants (lines 8-11) *)

Definition TARGET_HASH : str := lit "EC9C0F7EDCC18A98B1F31853B1813301".
Definition START_NUMBER : Z := 0.
Definition END_NUMBER : Z := 1 * 10 ^ 10 - 1.
Definition BLOCK_SIZE_PER_CORE : Z := 100000.

(** ** Global variables (lines 14-20) *)

(** A connection object, used as a dictionary key by identity. *)
Definition conn : Type := nat.

(** The peer address, only printed. *)
Definition addr : Type := (string * Z)%type.

(** [{'start': start, 'end': end}] *)
Record work : Type := Work { w_start : Z; w_end : Z }.

(** [{'conn': conn, 'cores': cores}] *)
Record client : Type := Client { c_conn : conn; c_cores : pyval }.

Record globals : Type := Globals {
  current_number : Z;
  found : bool;
  found_number : pyval;
  clients : list client;
  assigned_work : gmap conn work
}.

Definition init_globals : globals :=
  {| current_number := START_NUMBER;
     found := false;
     found_number := PNone;
     clients := [];
     assigned_work := ∅ |}.

(** ** What the server sends and prints *)

Inductive response : Type :=
| RStop
| RNoWork
| RWork (w_first w_last : Z) (target_hash : str).

Inductive logline : Type :=
| LogConnected (a : addr)
| LogJSONDecodeError (a : addr)
| LogRegistered (a : addr) (cores : pyval)
| LogFound (number : pyval)
| LogError (a : addr) (e : exn)
| LogDisconnected (a : addr).

(** [Send c r] is a call [send_message(c, r)]: the function swallows every
    failure of the socket (lines 143-147), so a call never raises. *)
Inductive effect : Type :=
| Send (c : conn) (r : response)
| Print (l : logline)
| Close (c : conn).

(** ** The locked regions *)

(** [if conn in assigned_work: assigned_work.pop(conn)] (lines 63-64, 97-98) *)
Definition pop_assigned (c : conn) (g : globals) : globals :=
  {| current_number := current_number g;
     found := found g;
     found_number := found_number g;
     clients := clients g;
     assigned_work := delete c (assigned_work g) |}.

(** Lines 56-57. *)
Definition locked_register (c : conn) (cores : pyval) (g : globals) : globals :=
  {| current_number := current_number g;
     found := found g;
     found_number := found_number g;
     clients := clients g ++ [Client c cores];
     assigned_work := assigned_work g |}.

(** How the region of lines 62-83 is left. *)
Inductive allocation : Type :=
| Stop
| NoWork
| Block (w : work)
| Failed (e : exn).

(** Lines 62-83: the block handed to [c], whose session holds
    [client_cores]. *)
Definition locked_request_work (c : conn) (client_cores : pyval) (g : globals)
  : globals * allocation :=
  let g1 := pop_assigned c g in
  if found g1 then (g1, Stop)
  else
    match as_int client_cores with
    | None => (g1, Failed TypeError)
    | Some cores =>
        let block_size := BLOCK_SIZE_PER_CORE * cores in
        let start := current_number g1 in
        let end_ := Z.min (current_number g1 + block_size - 1) END_NUMBER in
        if END_NUMBER <? start then (g1, NoWork)
        else
          let w := Work start end_ in
          ({| current_number := end_ + 1;
              found := found g1;
              found_number := found_number g1;
              clients := clients g1;
              assigned_work := <[c := w]> (assigned_work g1) |},
           Block w)
    end.

(** Lines 96-103. [found = True] is assigned before [message['number']] is
    read, so a message without that key leaves the flag set and raises; and
    the [print] of line 103 comes after both assignments, so a number that
    cannot be printed leaves both in place and raises. *)
Definition locked_found (c : conn) (message : pyval) (g : globals)
  : globals * list effect * option exn :=
  let g1 := pop_assigned c g in
  if found g1 then (g1, [], None)
  else
    let g2 := {| current_number := current_number g1;
                 found := true;
                 found_number := found_number g1;
                 clients := clients g1;
                 assigned_work := assigned_work g1 |} in
    match getitem message (lit "number") with
    | inl e => (g2, [], Some e)
    | inr number =>
        let g3 := {| current_number := current_number g2;
                     found := true;
                     found_number := number;
                     clients := clients g2;
                     assigned_work := assigned_work g2 |} in
        if print_ok number then (g3, [Print (LogFound number)], None)
        else (g3, [], Some UnicodeEncodeError)
    end.

(** Lines 126-132: one [stop] per entry of [clients], in order. *)
Definition notify_all_clients (g : globals) : list effect :=
  map (fun cl => Send (c_conn cl) RStop) (clients g).

(** Lines 112-116, the [finally] block. *)
Definition locked_cleanup (c : conn) (g : globals) : globals :=
  {| current_number :=
       match assigned_work g !! c with
       | Some w => w_start w
       | None => current_number g
       end;
     found := found g;
     found_number := found_number g;
     clients := filter (fun cl => c_conn cl ≠ c) (clients g);
     assigned_work := delete c (assigned_work g) |}.

(** ** Runs of the server: the regions in the order the lock was taken *)

Inductive action : Type :=
| ARegister (c : conn) (cores : pyval)
| ARequestWork (c : conn) (client_cores : pyval)
| AFound (c : conn) (message : pyval)
| ANotify
| ACleanup (c : conn).

(** The reply to a work request (lines 68-69, 77-78, 86-92). *)
Definition reply (c : conn) (a : allocation) : list effect :=
  match a with
  | Stop => [Send c RStop]
  | NoWork => [Send c RNoWork]
  | Block w => [Send c (RWork (w_start w) (w_end w) TARGET_HASH)]
  | Failed _ => []
  end.

Definition exec (a : action) (g : globals) : globals * list effect :=
  match a with
  | ARegister c cores => (locked_register c cores g, [])
  | ARequestWork c client_cores =>
      let '(g', r) := locked_request_work c client_cores g in (g', reply c r)
  | AFound c message =>
      let '(g', out, _) := locked_found c message g in (g', out)
  | ANotify => (g, notify_all_clients g)
  | ACleanup c => (locked_cleanup c g, [])
  end.

Fixpoint run (tr : list action) (g : globals) : globals * list effect :=
  match tr with
  | [] => (g, [])
  | a :: tr' =>
      let '(g1, out1) := exec a g in
      let '(g2, out2) := run tr' g1 in
      (g2, out1 ++ out2)
  end.

Definition reachable (g : globals) : Prop :=
  ∃ tr, g = fst (run tr init_globals).

(** ** Bytes off the socket *)

(** [bytes.decode()], strict UTF-8, on the numeric values of the bytes:
    the well-formed sequences are
    00-7F | C2-DF 80-BF | E0 A0-BF 80-BF | E1-EC 80-BF 80-BF | ED 80-9F 80-BF |
    EE-EF 80-BF 80-BF | F0 90-BF 80-BF 80-BF | F1-F3 80-BF 80-BF 80-BF |
    F4 80-8F 80-BF 80-BF; anything else, a sequence cut short by the end of
    the data included, raises [UnicodeDecodeError] ([None]). *)
Fixpoint utf8_decode (bs : list N) : option str :=
  match bs with
  | [] => Some []
  | b0 :: t0 =>
      if (b0 <? 0x80)%N then cons b0 <$> utf8_decode t0
      else if in_range 0xC2 0xDF b0 then
        match t0 with
        | b1 :: t1 =>
            if in_range 0x80 0xBF b1
            then cons ((b0 - 0xC0) * 0x40 + (b1 - 0x80))%N <$> utf8_decode t1
            else None
        | _ => None
        end
      else if in_range 0xE0 0xEF b0 then
        match t0 with
        | b1 :: b2 :: t2 =>
            if in_range (if (b0 =? 0xE0)%N then 0xA0 else 0x80)
                        (if (b0 =? 0xED)%N then 0x9F else 0xBF) b1
               && in_range 0x80 0xBF b2
            then cons ((b0 - 0xE0) * 0x1000 + (b1 - 0x80) * 0x40
                       + (b2 - 0x80))%N <$> utf8_decode t2
            else None
        | _ => None
        end
      else if in_range 0xF0 0xF4 b0 then
        match t0 with
        | b1 :: b2 :: b3 :: t3 =>
            if in_range (if (b0 =? 0xF0)%N then 0x90 else 0x80)
                        (if (b0 =? 0xF4)%N then 0x8F else 0xBF) b1
               && in_range 0x80 0xBF b2 && in_range 0x80 0xBF b3
            then cons ((b0 - 0xF0) * 0x40000 + (b1 - 0x80) * 0x1000
                       + (b2 - 0x80) * 0x40 + (b3 - 0x80))%N <$> utf8_decode t3
            else None
        | _ => None
        end
      else None
  end.

(** [conn.recv(1024).decode()] on one chunk of received bytes. *)
Definition decode (data : list Byte.byte) : option str :=
  utf8_decode (map Byte.to_N data).

(** The line feed the frames end with. *)
Definition LF : N := 10%N.

(** The frames the inner loop (lines 44-45) takes off the front of
    [buffer], first to last, and what stays in [buffer] when no line feed is
    left. [split_frames_frame] and [split_frames_rest] below are the two
    equations of that loop. *)
Fixpoint split_frames (buffer : str) : list str * str :=
  match buffer with
  | [] => ([], [])
  | ch :: tl =>
      let '(frames, rest) := split_frames tl in
      if (ch =? LF)%N then ([] :: frames, rest)
      else
        match frames with
        | [] => ([], ch :: rest)
        | f :: frames' => ((ch :: f) :: frames', rest)
        end
  end.

(** ** One session *)

(** What [json.loads] does with a frame. *)
Inductive loads_result : Type :=
| Loaded (message : pyval)
| JSONDecodeError
| LoadsRaised.

(** The session after one step: the globals, the session's core count, what
    was sent and printed, and the exception that left the loop, if any. *)
Record outcome : Type := Outcome {
  o_glob : globals;
  o_cores : pyval;
  o_out : list effect;
  o_raised : option exn
}.

(** [o], after [out] was sent and printed. *)
Definition after (out : list effect) (o : outcome) : outcome :=
  {| o_glob := o_glob o;
     o_cores := o_cores o;
     o_out := out ++ o_out o;
     o_raised := o_raised o |}.

Section Session.

(** [json.loads], of the Python library. *)
Variable json_loads : str → loads_result.

Variable c : conn.
Variable a : addr.

(** Lines 94-106, a [found] message. The lock is released after line 103
    and taken again by [notify_all_clients] at line 126: [between] are the
    regions the other threads run in that gap, and the broadcast goes to
    the entries [clients] has when it takes the lock. *)
Definition handle_found (between : list action)
           (message client_cores : pyval) (g : globals) : outcome :=
  let '(g', out, raised) := locked_found c message g in
  match raised with
  | Some e => Outcome g' client_cores out (Some e)
  | None =>
      let g'' := (run between g').1 in
      Outcome g'' client_cores (out ++ notify_all_clients g'') None
  end.

(** Lines 52-106: one decoded message, in a session taken alone (no other
    thread runs between its regions). *)
Definition handle_message (message client_cores : pyval) (g : globals)
  : outcome :=
  match getitem message (lit "type") with
  | inl e => Outcome g client_cores [] (Some e)
  | inr type =>
      if eq_lit type "register" then
        match getitem message (lit "cores") with
        | inl e => Outcome g client_cores [] (Some e)
        | inr cores =>
            if print_ok cores then
              Outcome (locked_register c cores g) cores
                      [Print (LogRegistered a cores)] None
            else
              Outcome (locked_register c cores g) cores []
                      (Some UnicodeEncodeError)
        end
      else if eq_lit type "request_work" then
        let '(g', r) := locked_request_work c client_cores g in
        Outcome g' client_cores (reply c r)
                (match r with Failed e => Some e | _ => None end)
      else if eq_lit type "found" then
        handle_found [] message client_cores g
      else Outcome g client_cores [] None
  end.

(** Lines 44-106: the frames taken off the buffer, one at a time. *)
Fixpoint handle_frames (frames : list str) (client_cores : pyval)
         (g : globals) : outcome :=
  match frames with
  | [] => Outcome g client_cores [] None
  | message_str :: frames' =>
      match json_loads message_str with
      | JSONDecodeError =>
          after [Print (LogJSONDecodeError a)]
                (handle_frames frames' client_cores g)
      | LoadsRaised => Outcome g client_cores [] (Some LoadsError)
      | Loaded message =>
          let o := handle_message message client_cores g in
          match o_raised o with
          | Some _ => o
          | None => after (o_out o) (handle_frames frames' (o_cores o) (o_glob o))
          end
      end
  end.

(** Lines 44-106 on a buffer: its complete frames are handled, then
    [next] goes on with what is left of it. *)
Definition drain (next : str → pyval → globals → outcome) (buffer : str)
           (client_cores : pyval) (g : globals) : outcome :=
  let '(frames, buffer') := split_frames buffer in
  let o := handle_frames frames client_cores g in
  match o_raised o with
  | Some _ => o
  | None => after (o_out o) (next buffer' (o_cores o) (o_glob o))
  end.

(** Lines 38-106: the receive loop over the chunks [recv] returns; the
    peer closes after the last one. *)
Fixpoint recv_loop (chunks : list (list Byte.byte)) (buffer : str)
         (client_cores : pyval) (g : globals) : outcome :=
  match chunks with
  | [] => Outcome g client_cores [] None
  | chunk :: chunks' =>
      match decode chunk with
      | None => Outcome g client_cores [] (Some UnicodeDecodeError)
      | Some [] => Outcome g client_cores [] None
      | Some data => drain (recv_loop chunks') (buffer ++ data) client_cores g
      end
  end.

(** Lines 33-118. *)
Definition handle_client (chunks : list (list Byte.byte)) (g : globals)
  : globals * list effect :=
  let o := recv_loop chunks [] (PInt 1) g in
  (locked_cleanup c (o_glob o),
   [Print (LogConnected a)] ++ o_out o
   ++ match o_raised o with
      | Some e => [Print (LogError a e)]
      | None => []
      end
   ++ [Close c; Print (LogDisconnected a)]).

End Session.


(** ** Vocabulary of the statements *)

(** [g'] comes from [g] by some regions. *)
Definition evolves (g g' : globals) : Prop :=
  ∃ tr, g' = (run tr g).1.

(** The [register] regions of [c] in a run. *)
Definition registrations (c : conn) (tr : list action) : nat :=
  length (List.filter (fun x => match x with
                                | ARegister c' _ => bool_decide (c' = c)
                                | _ => false
                                end) tr).

(** [c] does not disconnect in the run. *)
Definition stays (c : conn) (tr : list action) : bool :=
  forallb (fun x => match x with
                    | ACleanup c' => negb (bool_decide (c' = c))
                    | _ => true
                    end) tr.

(** Every block in the table starts inside the range. *)
Definition blocks_in_range (g : globals) : Prop :=
  ∀ c w, assigned_work g !! c = Some w → w_start w ≤ END_NUMBER.

(** The blocks a run sent out, in the order they were sent. *)
Definition issued (out : list effect) : list work :=
  omap (fun e => match e with
                 | Send _ (RWork s l _) => Some (Work s l)
                 | _ => None
                 end) out.

(** The regions of a run without reclaim in which every integer core count
    is at least 1 (the declared core count of a session). *)
Definition orderly (x : action) : bool :=
  match x with
  | ACleanup _ => false
  | ARequestWork _ client_cores =>
      match as_int client_cores with
      | Some cores => 1 <=? cores
      | None => true
      end
  | _ => true
  end.

(** A region other than a work request. *)
Definition no_request (x : action) : bool :=
  match x with
  | ARequestWork _ _ => false
  | _ => true
  end.

(** A region in which the core count that line 72 multiplies, if any, is an
    [int] (or a [bool], which is one). *)
Definition integral (x : action) : bool :=
  match x with
  | ARequestWork _ client_cores => bool_decide (is_Some (as_int client_cores))
  | _ => true
  end.

(** The regions of a run without reclaim in which every work request is
    made with an integer core count of at least 1. *)
Definition counted (x : action) : bool :=
  match x with
  | ACleanup _ => false
  | ARequestWork _ client_cores =>
      match as_int client_cores with
      | Some cores => 1 <=? cores
      | None => false
      end
  | _ => true
  end.

(** [tiling from ws to]: the blocks [ws], in order, are non-empty, lie in
    the range, and follow each other without gap from [from] up to [to],
    the first number not covered. *)
Inductive tiling (from : Z) : list work → Z → Prop :=
| tiling_nil : tiling from [] from
| tiling_snoc ws to w :
    tiling from ws to →
    w_start w = to →
    to ≤ w_end w →
    w_end w ≤ END_NUMBER →
    tiling from (ws ++ [w]) (w_end w + 1).

(** The entries of [clients] that belong to [c]. *)
Definition entries (c : conn) (g : globals) : nat :=
  length (filter (fun cl => c_conn cl = c) (clients g)).

Definition is_stop_to (c : conn) (e : effect) : bool :=
  match e with
  | Send c' RStop => bool_decide (c' = c)
  | _ => false
  end.

(** The [stop] messages sent to [c] in [out]. *)
Definition stops_to (c : conn) (out : list effect) : nat :=
  length (List.filter (is_stop_to c) out).

Definition is_send (e : effect) : bool :=
  match e with
  | Send _ _ => true
  | _ => false
  end.

(** The messages sent in [out], without what was printed. *)
Definition sends (out : list effect) : list effect := List.filter is_send out.


(** [message] is a dict with ['type'] equal to ['found']. *)
Definition is_found_message (message : pyval) : Prop :=
  ∃ type, getitem message (lit "type") = inr type ∧
          eq_lit type "found" = true.

(** A chunk that is not empty and is valid UTF-8 on its own. *)
Definition whole (chunk : list Byte.byte) : bool :=
  match decode chunk with
  | Some (_ :: _) => true
  | _ => false
  end.

(** ** Concrete traffic *)

(** The characters of [s], an apostrophe standing for the double quote of
    JSON. *)
Definition text (s : string) : str :=
  map (fun ch => if (ch =? 39)%N then 34%N else ch) (lit s).

(** The bytes of an ASCII [text]. *)
Definition wire (s : string) : list Byte.byte :=
  omap Byte.of_N (text s).

(** [json.loads] on the texts of an example: each text that occurs is listed
    with what [json.loads] does with it. *)
Definition loads_of (known : list (str * loads_result)) (s : str)
  : loads_result :=
  match list_find (fun kv => kv.1 = s) known with
  | Some (_, (_, r)) => r
  | None => LoadsRaised
  end.

(** [{'type': 'found', 'number': number}] *)
Definition found_message (number : pyval) : pyval :=
  PDict [(lit "type", PStr (lit "found")); (lit "number", number)].

(** [{'type': 'request_work'}] *)
Definition request_work_message : pyval :=
  PDict [(lit "type", PStr (lit "request_work"))].

(** [{'type': 'register', 'cores': cores}] *)
Definition register_message (cores : pyval) : pyval :=
  PDict [(lit "type", PStr (lit "register")); (lit "cores", cores)].

(** Connections 1 and 2 each take a block, then 1 disconnects. *)
Definition one_gone : list action :=
  [ARequestWork 1%nat (PInt 1); ARequestWork 2%nat (PInt 1); ACleanup 1%nat].

(** Three workers of 1, 2 and 1 cores. *)
Definition three_requests : list action :=
  [ARegister 1%nat (PInt 1); ARequestWork 1%nat (PInt 1);
   ARegister 2%nat (PInt 2); ARequestWork 2%nat (PInt 2);
   ARequestWork 1%nat (PInt 1)].

(** Connection 1 takes a block, connection 2 registers -1 cores and asks
    for work, then 1 asks again. Nobody disconnects. *)
Definition negative_cores : list action :=
  [ARequestWork 1%nat (PInt 1);
   ARegister 2%nat (PInt (-1)); ARequestWork 2%nat (PInt (-1));
   ARequestWork 1%nat (PInt 1)].

(** A peer address for the examples. *)
Definition peer : addr := ("10.0.0.7"%string, 50000).

(** The globals after connections 1 and 2 registered, 1 reported 42 and the
    broadcast was sent. *)
Definition after_first_report : globals :=
  (run [ARegister 1%nat (PInt 4); ARegister 2%nat (PInt 1);
        AFound 1%nat (found_message (PInt 42)); ANotify] init_globals).1.

(** The globals after connections 1 and 2 registered. *)
Definition two_registered : globals :=
  (run [ARegister 1%nat (PInt 4); ARegister 2%nat (PInt 1)] init_globals).1.

(** [json.loads] on the texts of the examples below. *)
Definition example_loads : str → loads_result :=
  loads_of
    [(text "{}", Loaded (PDict []));
     (text "oops", JSONDecodeError);
     (text "{'type':'request_work'}", Loaded request_work_message);
     (text "{'type':'register','cores':4}", Loaded (register_message (PInt 4)));
     (text "{'type':'register','cores':2}", Loaded (register_message (PInt 2)));
     (text "{'type':'request_work','id':'" ++ [233%N] ++ text "'}",
      Loaded (PDict [(lit "type", PStr (lit "request_work"));
                     (lit "id", PStr [233%N])]))].

(** The bytes of [{"type":"request_work","id":"é"}] and a line feed, cut
    between the two bytes C3 A9 of the é. *)
Definition tagged_head : list Byte.byte :=
  wire "{'type':'request_work','id':'" ++ [Byte.xc3].

Definition tagged_tail : list Byte.byte :=
  [Byte.xa9] ++ wire "'}" ++ [Byte.x0a].

(** A [register] message cut in the middle of a word, and in one piece. *)
Definition register_in_two : list (list Byte.byte) :=
  [wire "{'type':'reg"; wire "ister','cores':2}" ++ [Byte.x0a]].

Definition register_in_one : list (list Byte.byte) :=
  [wire "{'type':'register','cores':2}" ++ [Byte.x0a]].

(** ** Vocabulary of the further properties *)

(** A region that is not the report of a match. *)
Definition no_report (x : action) : bool :=
  match x with
  | AFound _ _ => false
  | _ => true
  end.

(** [c'] has in [g'] the table entry and the entries of [clients] it has
    in [g]. *)
Definition kept_for (c' : conn) (g g' : globals) : Prop :=
  assigned_work g' !! c' = assigned_work g !! c' ∧
  filter (fun cl => c_conn cl = c') (clients g') =
  filter (fun cl => c_conn cl = c') (clients g).

(** The number [x] lies in the block [w]. *)
Definition inside (x : Z) (w : work) : Prop :=
  w_start w ≤ x ≤ w_end w.

(** Two blocks with no number in common, one wholly before the other. *)
Definition apart (w w' : work) : Prop :=
  w_end w < w_start w' ∨ w_end w' < w_start w.

(** The blocks in the table are not empty, lie below the cursor, and those
    of different connections are apart. *)
Definition held_apart (g : globals) : Prop :=
  (∀ c w, assigned_work g !! c = Some w →
          w_start w ≤ w_end w ∧ w_end w < current_number g) ∧
  (∀ c c' w w', c ≠ c' →
                assigned_work g !! c = Some w →
                assigned_work g !! c' = Some w' → apart w w').

(** The cursor and the blocks in the table do not pass the end of the
    range. *)
Definition below_end (g : globals) : Prop :=
  current_number g ≤ END_NUMBER + 1 ∧
  ∀ c w, assigned_work g !! c = Some w →
         w_start w ≤ END_NUMBER ∧ w_end w ≤ END_NUMBER.

(** Connections 1 and 2 each take a block. *)
Definition two_working : list action :=
  [ARequestWork 1%nat (PInt 1); ARequestWork 2%nat (PInt 1)].

(** Connection 1 asks for work, 2 registers, 1 reports 42, 2 reports 43. *)
Definition two_reports : list action :=
  [ARequestWork 1%nat (PInt 1); ARegister 2%nat (PInt 1);
   AFound 1%nat (found_message (PInt 42));
   AFound 2%nat (found_message (PInt 43))].

(** ** Sending (lines 135-147) *)

(** [str.encode()], UTF-8, on one character: [None] stands for the
    [UnicodeEncodeError] raised for a surrogate (and for a number that is
    no code point at all). *)
Definition utf8_encode_char (ch : N) : option (list N) :=
  if (ch <? 0x80)%N then Some [ch]
  else if (ch <? 0x800)%N then
    Some [0xC0 + ch / 0x40; 0x80 + ch mod 0x40]%N
  else if (ch <? 0x10000)%N then
    if in_range 0xD800 0xDFFF ch then None
    else Some [0xE0 + ch / 0x1000; 0x80 + ch / 0x40 mod 0x40;
               0x80 + ch mod 0x40]%N
  else if (ch <? 0x110000)%N then
    Some [0xF0 + ch / 0x40000; 0x80 + ch / 0x1000 mod 0x40;
          0x80 + ch / 0x40 mod 0x40; 0x80 + ch mod 0x40]%N
  else None.

Fixpoint utf8_encode (s : str) : option (list N) :=
  match s with
  | [] => Some []
  | ch :: s' =>
      match utf8_encode_char ch, utf8_encode s' with
      | Some bs, Some bs' => Some (bs ++ bs')
      | _, _ => None
      end
  end.

(** [message_str.encode()] (line 145). *)
Definition encode (s : str) : option (list Byte.byte) :=
  match utf8_encode s with
  | Some bs => mapM Byte.of_N bs
  | None => None
  end.

(** What a call of [send_message] comes to: the bytes [sendall] took, or
    the failure that line 147 prints. *)
Inductive delivery : Type :=
| Written (c : conn) (bytes : list Byte.byte)
| SendFailed (c : conn).

Section Sending.

(** [json.dumps], of the Python library, on the dict of a response. *)
Variable json_dumps : response → str.

(** Whether [conn.sendall] takes the bytes ([false]: it raises). *)
Variable sendall : conn → list Byte.byte → bool.

(** Lines 143-147. *)
Definition send_message (c : conn) (message : response) : delivery :=
  match encode (json_dumps message ++ [LF]) with
  | None => SendFailed c
  | Some bytes =>
      if sendall c bytes then Written c bytes else SendFailed c
  end.

(** The calls of [send_message] in [out], carried out in order. *)
Definition deliveries (out : list effect) : list delivery :=
  omap (fun e => match e with
                 | Send c message => Some (send_message c message)
                 | _ => None
                 end) out.

End Sending.

(** The bytes that went to the socket of [c], in order. *)
Definition written_to (c : conn) (ds : list delivery) : list Byte.byte :=
  concat (omap (fun d => match d with
                         | Written c' bytes =>
                             if decide (c' = c) then Some bytes else None
                         | SendFailed _ => None
                         end) ds).

(** The responses [out] sends to [c], in order. *)
Definition sent_to (c : conn) (out : list effect) : list response :=
  omap (fun e => match e with
                 | Send c' message =>
                     if decide (c' = c) then Some message else None
                 | _ => None
                 end) out.

(** ** The listener (lines 150-180) *)

(** Where the main thread is: at the test of line 166, inside
    [server.accept()], or past the loop. *)
Inductive listening : Type :=
| AtTest
| InAccept
| ShutDown.

(** How [server.accept()] returns: with a connection, with [socket.timeout]
    (line 171), or with another error. *)
Inductive accepted : Type :=
| Connection (c : conn) (a : addr)
| TimedOut
| AcceptError.

Inductive server_effect : Type :=
| SayListening
| SayInterrupted
| SayFound (number : pyval)
| SayShuttingDown
| CloseListener.

(** What happens next in the process: the main thread tests [found], its
    [accept] returns, it is interrupted from the keyboard, or some session
    thread runs one of its locked regions. *)
Inductive tick : Type :=
| Test
| Accept (r : accepted)
| Interrupt
| Region (x : action).

Record server : Type := Server {
  srv_glob : globals;
  srv_listener : listening;
  srv_threads : list (conn * addr);
  srv_out : list server_effect
}.

(** Lines 159-163. *)
Definition server_start : server :=
  {| srv_glob := init_globals;
     srv_listener := AtTest;
     srv_threads := [];
     srv_out := [SayListening] |}.

(** Lines 175-180. *)
Definition shut_down (s : server) (before : list server_effect) : server :=
  {| srv_glob := srv_glob s;
     srv_listener := ShutDown;
     srv_threads := srv_threads s;
     srv_out := srv_out s ++ before
                ++ [CloseListener;
                    if found (srv_glob s) then SayFound (found_number (srv_glob s))
                    else SayShuttingDown] |}.

Definition listener_at (l : listening) (s : server) : server :=
  {| srv_glob := srv_glob s;
     srv_listener := l;
     srv_threads := srv_threads s;
     srv_out := srv_out s |}.

(** One step of [server_main] and the threads it started. A tick the main
    thread is not ready for changes nothing. *)
Definition tick_server (t : tick) (s : server) : server :=
  match t, srv_listener s with
  | Test, AtTest =>
      if found (srv_glob s) then shut_down s [] else listener_at InAccept s
  | Accept (Connection c a), InAccept =>
      {| srv_glob := srv_glob s;
         srv_listener := AtTest;
         srv_threads := srv_threads s ++ [(c, a)];
         srv_out := srv_out s |}
  | Accept TimedOut, InAccept => listener_at AtTest s
  | Accept AcceptError, InAccept => shut_down s []
  | Interrupt, (AtTest | InAccept) => shut_down s [SayInterrupted]
  | Region x, _ =>
      {| srv_glob := (exec x (srv_glob s)).1;
         srv_listener := srv_listener s;
         srv_threads := srv_threads s;
         srv_out := srv_out s |}
  | _, _ => s
  end.

Fixpoint ticks (ts : list tick) (s : server) : server :=
  match ts with
  | [] => s
  | t :: ts' => ticks ts' (tick_server t s)
  end.


(** The threads started, and one more if an [accept] is under way. *)
Definition may_start (s : server) : nat :=
  (length (srv_threads s)
   + match srv_listener s with InAccept => 1 | _ => 0 end)%nat.

(** ** More traffic for the examples *)

(** [json.loads] on two more texts. *)
Definition more_loads : str → loads_result :=
  loads_of
    [(text "{'type':'ping'}", Loaded (PDict [(lit "type", PStr (lit "ping"))]));
     (text "{'type':'request_work'}", Loaded request_work_message)].

(** [json.dumps] on the dicts built at lines 68, 77 and 86-91, with the
    numbers in decimal. *)
Definition example_dumps (message : response) : str :=
  match message with
  | RStop => text "{'type': 'stop'}"
  | RNoWork => text "{'type': 'no_work'}"
  | RWork first last target_hash =>
      text "{'type': 'work', 'start': " ++ lit (pretty first)
      ++ text ", 'end': " ++ lit (pretty last)
      ++ text ", 'target_hash': '" ++ target_hash ++ text "'}"
  end.


(** The main thread tests, a worker connects and reports 42 while the next
    [accept] is under way, a second worker is accepted, a third knocks. *)
Definition late_arrivals : list tick :=
  [Test; Accept (Connection 1%nat peer); Test;
   Region (AFound 1%nat (found_message (PInt 42)));
   Accept (Connection 2%nat peer); Test; Accept (Connection 3%nat peer)].

(** Connections 1, 2 and 3 each hold a block; 1 disconnects, then 3
    disconnects before anybody asks for work. *)
Definition two_gone : list action :=
  [ARequestWork 1%nat (PInt 1); ARequestWork 2%nat (PInt 1);
   ARequestWork 3%nat (PInt 1); ACleanup 1%nat; ACleanup 3%nat].

(** Connection 4 registers, and connection 5, which never asked for work,
    disconnects. *)
Definition meanwhile : list action :=
  [ARegister 4%nat (PInt 8); ACleanup 5%nat].


(** * Properties *)

(** The ways out of lines 100-103: no number, a number that prints, a number
    that does not. *)
Ltac number_cases message :=
  let number := fresh "number" in
  destruct (getitem message (lit "number")) as [?|number];
  [|destruct (print_ok number)].

(** ** The constants *)

Lemma END_NUMBER_eq : END_NUMBER = 9999999999.
Proof. reflexivity. Qed.

Lemma BLOCK_SIZE_PER_CORE_pos : 0 < BLOCK_SIZE_PER_CORE.
Proof. reflexivity. Qed.

Lemma START_NUMBER_le_END : START_NUMBER ≤ END_NUMBER.
Proof. rewrite END_NUMBER_eq. unfold START_NUMBER. lia. Qed.

Global Opaque END_NUMBER BLOCK_SIZE_PER_CORE.

(** ** Runs *)

Lemma run_app tr1 tr2 g :
  run (tr1 ++ tr2) g =
  let '(g1, out1) := run tr1 g in
  let '(g2, out2) := run tr2 g1 in
  (g2, out1 ++ out2).
Proof.
  revert g. induction tr1 as [|x tr1 IH]; intros g; simpl.
  - by destruct (run tr2 g).
  - destruct (exec x g) as [g1 out1]. rewrite IH.
    destruct (run tr1 g1) as [g2 out2], (run tr2 g2) as [g3 out3].
    by rewrite app_assoc.
Qed.

Lemma run_snoc tr x g :
  run (tr ++ [x]) g =
  let '(g1, out1) := run tr g in
  let '(g2, out2) := exec x g1 in
  (g2, out1 ++ out2).
Proof.
  rewrite run_app. destruct (run tr g) as [g1 out1]. simpl.
  destruct (exec x g1) as [g2 out2]. by rewrite app_nil_r.
Qed.

Lemma reachable_init : reachable init_globals.
Proof. by exists []. Qed.

Lemma reachable_exec x g : reachable g → reachable (exec x g).1.
Proof.
  intros [tr ->]. exists (tr ++ [x]). rewrite run_snoc.
  destruct (run tr init_globals) as [g1 out1]. simpl.
  by destruct (exec x g1).
Qed.

Lemma reachable_run tr g : reachable g → reachable (run tr g).1.
Proof.
  intros [tr0 ->]. exists (tr0 ++ tr). rewrite run_app.
  destruct (run tr0 init_globals) as [g1 out1]. simpl.
  by destruct (run tr g1).
Qed.

(** A property of the globals that every region keeps holds in every
    reachable state. *)
Lemma reachable_ind (P : globals → Prop) :
  P init_globals →
  (∀ x g, P g → P (exec x g).1) →
  ∀ g, reachable g → P g.
Proof.
  intros Hinit Hstep g [tr ->].
  induction tr as [|x tr IH] using rev_ind; [done|].
  rewrite run_snoc. destruct (run tr init_globals) as [g1 out1]. simpl in *.
  specialize (Hstep x g1 IH). by destruct (exec x g1).
Qed.

(** ** What each region does to the flag and to the cursor *)

Lemma locked_request_work_found c cores g :
  found (locked_request_work c cores g).1 = found g.
Proof.
  unfold locked_request_work.
  change (found (pop_assigned c g)) with (found g).
  destruct (found g) eqn:Hf; [done|].
  destruct (as_int cores); [|done].
  by case_match.
Qed.

Lemma locked_found_sets c message g :
  found (locked_found c message g).1.1 = true.
Proof.
  unfold locked_found. simpl. destruct (found g) eqn:Hf; [done|].
  by number_cases message.
Qed.

Lemma blocks_in_range_exec x g :
  blocks_in_range g → blocks_in_range (exec x g).1.
Proof.
  intros Hg. destruct x as [c cores|c cores|c message| |c]; simpl.
  - done.
  - unfold locked_request_work. simpl.
    destruct (found g).
    { intros c' w. simpl. intros [_ H]%lookup_delete_Some. eauto. }
    destruct (as_int cores) as [k|].
    2:{ intros c' w. simpl. intros [_ H]%lookup_delete_Some. eauto. }
    destruct (Z.ltb_spec END_NUMBER (current_number g)).
    { intros c' w. simpl. intros [_ H']%lookup_delete_Some. eauto. }
    intros c' w. simpl. rewrite insert_delete_eq.
    intros [[_ <-]|[_ H']]%lookup_insert_Some; simpl; [lia|eauto].
  - unfold locked_found. simpl. destruct (found g).
    { intros c' w. simpl. intros [_ H]%lookup_delete_Some. eauto. }
    number_cases message;
      intros c' w; simpl; intros [_ H]%lookup_delete_Some; eauto.
  - done.
  - intros c' w. simpl. intros [_ H]%lookup_delete_Some. eauto.
Qed.

Lemma reachable_blocks_in_range g : reachable g → blocks_in_range g.
Proof.
  apply reachable_ind; [|apply blocks_in_range_exec].
  intros c w. simpl. by rewrite lookup_empty.
Qed.

(** ** The regions, case by case *)

Lemma locked_request_work_in_range (c : conn) (cores : Z) (g : globals) :
  found g = false →
  current_number g ≤ END_NUMBER →
  locked_request_work c (PInt cores) g =
  let w := Work (current_number g)
                (Z.min (current_number g + BLOCK_SIZE_PER_CORE * cores - 1)
                       END_NUMBER) in
  ({| current_number := w_end w + 1;
      found := false;
      found_number := found_number g;
      clients := clients g;
      assigned_work := <[c := w]> (assigned_work g) |},
   Block w).
Proof.
  intros Hf Hle. unfold locked_request_work.
  change (found (pop_assigned c g)) with (found g). rewrite Hf.
  change (as_int (PInt cores)) with (Some cores). cbv beta iota zeta.
  change (current_number (pop_assigned c g)) with (current_number g).
  destruct (Z.ltb_spec END_NUMBER (current_number g)) as [?|_]; [lia|].
  cbn [w_end found_number clients assigned_work pop_assigned].
  by rewrite insert_delete_eq.
Qed.

Lemma locked_request_work_exhausted (c : conn) (cores : Z) (g : globals) :
  found g = false →
  END_NUMBER < current_number g →
  locked_request_work c (PInt cores) g = (pop_assigned c g, NoWork).
Proof.
  intros Hf Hlt. unfold locked_request_work.
  change (found (pop_assigned c g)) with (found g). rewrite Hf.
  change (as_int (PInt cores)) with (Some cores). cbv beta iota zeta.
  change (current_number (pop_assigned c g)) with (current_number g).
  by destruct (Z.ltb_spec END_NUMBER (current_number g)) as [_|?]; [|lia].
Qed.

Lemma locked_cleanup_holding (c : conn) (w : work) (g : globals) :
  assigned_work g !! c = Some w →
  current_number (locked_cleanup c g) = w_start w.
Proof. intros Hw. unfold locked_cleanup. simpl. by rewrite Hw. Qed.

Lemma locked_found_clients (c : conn) (message : pyval) (g : globals) :
  clients (locked_found c message g).1.1 = clients g.
Proof.
  unfold locked_found. change (found (pop_assigned c g)) with (found g).
  by destruct (found g); [|number_cases message].
Qed.

(** ** Handing out a block *)

(** C4. While nothing was found, a work request of [c] with an integer core
    count [cores] is answered from the cursor: inside the range it gets the
    block from [current_number] to
    [min (current_number + BLOCK_SIZE_PER_CORE * cores - 1) END_NUMBER], the
    cursor moves to one past the block's end, and the block replaces whatever
    the table held for [c] (the old entry is dropped, the cursor is not
    rolled back to it). Past the end of the range the answer is [no_work]
    and the cursor stays where it is. *)
Theorem request_work_allocates (c : conn) (cores : Z) (g : globals) :
  found g = false →
  let start := current_number g in
  let end_ := Z.min (current_number g + BLOCK_SIZE_PER_CORE * cores - 1)
                    END_NUMBER in
  let g' := (locked_request_work c (PInt cores) g).1 in
  let r := (locked_request_work c (PInt cores) g).2 in
  (start ≤ END_NUMBER →
     r = Block (Work start end_) ∧
     reply c r = [Send c (RWork start end_ TARGET_HASH)] ∧
     current_number g' = end_ + 1 ∧
     assigned_work g' = <[c := Work start end_]> (assigned_work g) ∧
     assigned_work g' !! c = Some (Work start end_) ∧
     (∀ c', c' ≠ c → assigned_work g' !! c' = assigned_work g !! c')) ∧
  (END_NUMBER < start →
     r = NoWork ∧
     reply c r = [Send c RNoWork] ∧
     current_number g' = current_number g).
Proof.
  intros Hf start end_. split.
  - intros Hle. rewrite (locked_request_work_in_range c cores g Hf Hle).
    cbn [fst snd reply w_start w_end current_number assigned_work].
    repeat split; [by rewrite lookup_insert_eq|].
    intros c' Hne. by rewrite lookup_insert_ne.
  - intros Hlt. by rewrite (locked_request_work_exhausted c cores g Hf Hlt).
Qed.

Lemma request_work_allocates_witness :
  (locked_request_work 7%nat (PInt 2) init_globals).2 = Block (Work 0 199999) ∧
  current_number (locked_request_work 7%nat (PInt 2) init_globals).1 = 200000.
Proof.
  destruct (request_work_allocates 7%nat 2 init_globals eq_refl) as [Hin _].
  destruct (Hin START_NUMBER_le_END) as (Hr & _ & Hcur & _).
  split; [exact Hr | exact Hcur].
Defined.

(** ** Giving a block back *)

(** C1, as the code has it. When [c] disconnects while the table holds the
    block [w] for it, the entry is removed and the cursor is set to the
    start of [w], whatever the cursor was. That is
    [min current_number (w_start w)] exactly when the cursor was not below
    the start of [w]; a cursor that was below it is moved forward. *)
Theorem cleanup_resets_cursor (c : conn) (w : work) (g : globals) :
  assigned_work g !! c = Some w →
  let g' := locked_cleanup c g in
  assigned_work g' = delete c (assigned_work g) ∧
  assigned_work g' !! c = None ∧
  current_number g' = w_start w ∧
  (w_start w ≤ current_number g →
     current_number g' = Z.min (current_number g) (w_start w)) ∧
  (current_number g < w_start w → current_number g < current_number g').
Proof.
  intros Hw g'. subst g'. unfold locked_cleanup. simpl. rewrite Hw.
  split; [done|]. split; [apply lookup_delete_eq|].
  split; [done|]. split; lia.
Qed.

Lemma cleanup_resets_cursor_witness :
  current_number (locked_cleanup 2%nat (run one_gone init_globals).1) = 100000.
Proof.
  refine (proj1 (proj2 (proj2
    (cleanup_resets_cursor 2%nat (Work 100000 199999)
       (run one_gone init_globals).1 _)))).
  vm_compute. reflexivity.
Defined.

(** C1 as stated fails: after [one_gone] the cursor is 0 and connection 2
    still holds the block from 100000; its disconnect moves the cursor
    forward to 100000, which is not [min 0 100000]. *)
Lemma cleanup_not_min :
  let g := (run one_gone init_globals).1 in
  assigned_work g !! 2%nat = Some (Work 100000 199999) ∧
  current_number g = 0 ∧
  current_number (locked_cleanup 2%nat g) = 100000 ∧
  current_number (locked_cleanup 2%nat g) ≠ Z.min (current_number g) 100000.
Proof. vm_compute. repeat split; discriminate. Qed.

(** Regions other than work requests leave the cursor where it is, as long
    as no connection that holds a block disconnects. *)
Lemma no_request_exec x g :
  no_request x = true →
  (∀ c, x = ACleanup c → assigned_work g !! c = None) →
  current_number (exec x g).1 = current_number g ∧
  ∀ c, assigned_work g !! c = None → assigned_work (exec x g).1 !! c = None.
Proof.
  intros Hx Hc. destruct x as [c cores|c cores|c message| |c]; simpl;
    try done.
  - unfold locked_found. change (found (pop_assigned c g)) with (found g).
    destruct (found g); [|number_cases message]; simpl;
      (split; [done|]); intros c0 H; apply lookup_delete_None; by right.
  - rewrite (Hc c eq_refl). split; [done|].
    intros c0 H. apply lookup_delete_None. by right.
Qed.

Lemma no_request_run tr g :
  forallb no_request tr = true →
  (∀ c, ACleanup c ∈ tr → assigned_work g !! c = None) →
  current_number (run tr g).1 = current_number g.
Proof.
  revert g. induction tr as [|x tr IH]; intros g Hall Hc; [done|].
  simpl in Hall. apply andb_prop in Hall as [Hx Hall].
  destruct (no_request_exec x g Hx) as [Hcur Htbl].
  { intros c ->. apply Hc, list_elem_of_here. }
  simpl. destruct (exec x g) as [g1 out1]. simpl in Hcur, Htbl.
  specialize (IH g1 Hall). rewrite <- Hcur.
  destruct (run tr g1) as [g2 out2]. simpl in *. apply IH.
  intros c Hin. by apply Htbl, Hc, list_elem_of_further.
Qed.

(** C6, as the code has it. Let [c] disconnect while holding [w], in a
    reachable state, and let the other threads then take the lock for
    anything but a work request ([tr]: registrations, reports, broadcasts,
    disconnects of connections that hold no block). If nothing was found by
    the time of the next work request, that request, of any connection and
    with any integer core count, gets a block that starts at the start of
    [w]. (This holds wherever the cursor was.) *)
Theorem reclaimed_block_is_reissued (g : globals) (c c' : conn) (w : work)
        (cores : Z) (tr : list action) :
  reachable g →
  assigned_work g !! c = Some w →
  forallb no_request tr = true →
  (∀ c'', ACleanup c'' ∈ tr →
          assigned_work (locked_cleanup c g) !! c'' = None) →
  found (run tr (locked_cleanup c g)).1 = false →
  ∃ w', (locked_request_work c' (PInt cores)
           (run tr (locked_cleanup c g)).1).2 = Block w'
        ∧ w_start w' = w_start w.
Proof.
  intros Hr Hw Hall Hgone Hf.
  pose proof (reachable_blocks_in_range g Hr c w Hw) as Hle.
  pose proof (locked_cleanup_holding c w g Hw) as Hcur.
  pose proof (no_request_run tr _ Hall Hgone) as Hsame.
  rewrite locked_request_work_in_range; [|done|by rewrite Hsame, Hcur].
  eexists. split; [done|]. cbn [w_start]. by rewrite Hsame.
Qed.

Lemma reclaimed_block_is_reissued_witness :
  ∃ w', (locked_request_work 3%nat (PInt 1)
           (run meanwhile
              (locked_cleanup 2%nat (run one_gone init_globals).1)).1).2
        = Block w'
        ∧ w_start w' = 100000.
Proof.
  apply (reclaimed_block_is_reissued (run one_gone init_globals).1 2%nat 3%nat
           (Work 100000 199999) 1 meanwhile).
  - exists one_gone. reflexivity.
  - vm_compute. reflexivity.
  - reflexivity.
  - intros c'' Hin. apply list_elem_of_In in Hin. simpl in Hin.
    destruct Hin as [H|[H|[]]]; try discriminate H.
    injection H as <-. vm_compute. reflexivity.
  - reflexivity.
Defined.

(** The reclaim as the range is meant to be covered: a worker takes the
    first block and disconnects, the next worker gets the same block. *)
Example reclaim_scenario :
  issued (run [ARequestWork 1%nat (PInt 1); ACleanup 1%nat;
               ARequestWork 2%nat (PInt 1); ARequestWork 2%nat (PInt 1)]
              init_globals).2 =
  [Work 0 99999; Work 0 99999; Work 100000 199999].
Proof. vm_compute. reflexivity. Qed.

(** C6 as stated fails once a match was reported: connection 1 holds the
    block from 0 and the cursor is past it; connection 2 reports 42, then 1
    disconnects; the next request is answered [stop], not with a block. *)
Lemma reclaim_after_found_stops :
  let g := (run [ARequestWork 1%nat (PInt 1); ARequestWork 2%nat (PInt 1);
                 AFound 2%nat (found_message (PInt 42))] init_globals).1 in
  assigned_work g !! 1%nat = Some (Work 0 99999) ∧
  0 < current_number g ∧
  (locked_request_work 3%nat (PInt 1) (locked_cleanup 1%nat g)).2 = Stop.
Proof. vm_compute. repeat split. Qed.

(** Why no holder of a block may disconnect in between: after [two_gone]
    nothing was found, connection 1 has given back the block from 0, and the
    disconnect of 3 has moved the cursor to 200000: the next request gets
    the block from 200000, and the numbers from 0 are not handed out. *)
Example second_disconnect_takes_the_cursor :
  let g := (run [ARequestWork 1%nat (PInt 1); ARequestWork 2%nat (PInt 1);
                 ARequestWork 3%nat (PInt 1)] init_globals).1 in
  assigned_work g !! 1%nat = Some (Work 0 99999) ∧
  found (locked_cleanup 3%nat (locked_cleanup 1%nat g)) = false ∧
  (run two_gone init_globals).1 = locked_cleanup 3%nat (locked_cleanup 1%nat g) ∧
  (locked_request_work 2%nat (PInt 1)
     (locked_cleanup 3%nat (locked_cleanup 1%nat g))).2 =
  Block (Work 200000 299999).
Proof. vm_compute. repeat split. Qed.

(** ** Reporting a match *)

(** C8. The region that records a match drops the reporter's entry from the
    table and nothing else of the allocation state: the cursor is not moved
    and every other connection keeps its entry, whether or not something was
    found before. ([END_NUMBER] is a constant of the module.) *)
Theorem found_consumes_without_rollback (c : conn) (message : pyval)
        (g : globals) :
  let g' := (locked_found c message g).1.1 in
  assigned_work g' = delete c (assigned_work g) ∧
  assigned_work g' !! c = None ∧
  (∀ c', c' ≠ c → assigned_work g' !! c' = assigned_work g !! c') ∧
  current_number g' = current_number g ∧
  clients g' = clients g.
Proof.
  intros g'. subst g'. unfold locked_found.
  change (found (pop_assigned c g)) with (found g).
  assert (Hd : ∀ c', c' ≠ c →
            delete c (assigned_work g) !! c' = assigned_work g !! c').
  { intros c' Hne. by rewrite lookup_delete_ne. }
  destruct (found g); [|number_cases message];
    simpl; (repeat split; [apply lookup_delete_eq | exact Hd]).
Qed.

(** Once the flag is up, no region takes it down or touches the number. *)
Lemma found_stays x g :
  found g = true →
  found (exec x g).1 = true ∧ found_number (exec x g).1 = found_number g.
Proof.
  intros Hf. destruct x as [c cores|c cores|c message| |c]; simpl; try done.
  - unfold locked_request_work.
    change (found (pop_assigned c g)) with (found g). by rewrite Hf.
  - unfold locked_found.
    change (found (pop_assigned c g)) with (found g). by rewrite Hf.
Qed.

Lemma found_stays_run tr g :
  found g = true →
  found (run tr g).1 = true ∧ found_number (run tr g).1 = found_number g.
Proof.
  revert g. induction tr as [|x tr IH]; intros g Hf; [done|]. simpl.
  destruct (found_stays x g Hf) as [Hf1 Hn1].
  destruct (exec x g) as [g1 out1]. simpl in *.
  destruct (IH g1 Hf1) as [Hf2 Hn2].
  destruct (run tr g1) as [g2 out2]. simpl in *. split; congruence.
Qed.

(** C2. Let the report of [c] carry the number [V] and arrive while nothing
    was found: the region sets [found] and stores [V]. After any further run
    of the server (any regions, of any connections) [found] is still [True]
    and [found_number] is still [V]; a further report, of any connection,
    finds the guard [not found] of line 100 false, so it assigns and prints
    nothing and leaves [V] in place; and a work request of any connection,
    whatever its core count, is answered [stop] and hands out nothing. *)
Theorem found_is_permanent (g : globals) (c : conn) (message V : pyval)
        (tr : list action) :
  found g = false →
  getitem message (lit "number") = inr V →
  let g1 := (locked_found c message g).1.1 in
  let g2 := (run tr g1).1 in
  (found g1 = true ∧ found_number g1 = V) ∧
  (found g2 = true ∧ found_number g2 = V) ∧
  (∀ c' message',
     (locked_found c' message' g2).2 = None ∧
     (locked_found c' message' g2).1.2 = [] ∧
     found (locked_found c' message' g2).1.1 = true ∧
     found_number (locked_found c' message' g2).1.1 = V) ∧
  (∀ c' cores,
     (locked_request_work c' cores g2).2 = Stop ∧
     reply c' (locked_request_work c' cores g2).2 = [Send c' RStop] ∧
     current_number (locked_request_work c' cores g2).1 = current_number g2).
Proof.
  intros Hf HV g1 g2.
  assert (H1 : found g1 = true ∧ found_number g1 = V).
  { subst g1. unfold locked_found.
    change (found (pop_assigned c g)) with (found g). rewrite Hf, HV.
    by destruct (print_ok V). }
  assert (H2 : found g2 = true ∧ found_number g2 = V).
  { destruct H1 as [H1 <-]. apply found_stays_run, H1. }
  split; [done|]. split; [done|]. destruct H2 as [H2 H2']. split.
  - intros c' message'. unfold locked_found.
    change (found (pop_assigned c' g2)) with (found g2). by rewrite H2.
  - intros c' cores. unfold locked_request_work.
    change (found (pop_assigned c' g2)) with (found g2). by rewrite H2.
Qed.

Lemma found_is_permanent_witness :
  let g2 := (run [ACleanup 1%nat; ARequestWork 2%nat (PInt 4);
                  AFound 2%nat (found_message (PInt 7))]
               (locked_found 1%nat (found_message (PInt 42))
                  init_globals).1.1).1 in
  found g2 = true ∧ found_number g2 = PInt 42.
Proof.
  exact (proj1 (proj2
    (found_is_permanent init_globals 1%nat (found_message (PInt 42)) (PInt 42)
       [ACleanup 1%nat; ARequestWork 2%nat (PInt 4);
        AFound 2%nat (found_message (PInt 7))] eq_refl eq_refl))).
Defined.

(** ** Tiling of the range *)

Lemma tiling_bounds from ws to :
  tiling from ws to →
  from ≤ to ∧ ∀ w, w ∈ ws → from ≤ w_start w ∧ w_start w ≤ w_end w < to.
Proof.
  induction 1 as [|ws to w _ [IHle IH] Hs He Hr].
  - split; [lia|]. intros w Hw. by apply elem_of_nil in Hw.
  - split; [lia|]. intros w' [Hw'| ->%list_elem_of_singleton]%elem_of_app.
    + specialize (IH w' Hw'). lia.
    + lia.
Qed.

Lemma tiling_ordered from ws to :
  tiling from ws to →
  ∀ i j wi wj, ws !! i = Some wi → ws !! j = Some wj → (i < j)%nat →
               w_end wi < w_start wj.
Proof.
  induction 1 as [|ws to w Ht IH Hs He Hr]; intros i j wi wj Hi Hj Hij.
  - by rewrite lookup_nil in Hi.
  - destruct (decide (j < length ws)%nat) as [Hlt|Hge].
    + rewrite lookup_app_l in Hi, Hj by lia. eauto.
    + assert (j = length ws) as ->.
      { apply lookup_lt_Some in Hj. rewrite length_app in Hj. simpl in Hj. lia. }
      rewrite lookup_app_l in Hi by lia.
      rewrite list_lookup_middle in Hj by done. injection Hj as <-.
      apply list_elem_of_lookup_2 in Hi.
      destruct (tiling_bounds _ _ _ Ht) as [_ Hb]. specialize (Hb wi Hi). lia.
Qed.

Lemma tiling_adjacent from ws to :
  tiling from ws to →
  ∀ i wi wj, ws !! i = Some wi → ws !! S i = Some wj →
             w_start wj = w_end wi + 1.
Proof.
  induction 1 as [|ws to w Ht IH Hs He Hr]; intros i wi wj Hi Hj.
  - by rewrite lookup_nil in Hi.
  - destruct (decide (S i < length ws)%nat) as [Hlt|Hge].
    + rewrite lookup_app_l in Hi, Hj by lia. eauto.
    + assert (S i = length ws) as Hlen.
      { apply lookup_lt_Some in Hj. rewrite length_app in Hj. simpl in Hj. lia. }
      rewrite lookup_app_l in Hi by lia.
      rewrite Hlen, list_lookup_middle in Hj by done. injection Hj as <-.
      clear IH. inversion Ht as [Hnil|ws' to' w' Ht' Hs' He' Hr' Hws Hto].
      * subst. by rewrite lookup_nil in Hi.
      * subst ws. rewrite length_app in Hlen. simpl in Hlen.
        assert (i = length ws') as -> by lia.
        rewrite list_lookup_middle in Hi by done. injection Hi as <-. lia.
Qed.

Lemma tiling_first from ws to w :
  tiling from ws to → ws !! 0%nat = Some w → w_start w = from.
Proof.
  induction 1 as [|ws to w' Ht IH Hs He Hr]; intros H0.
  - by rewrite lookup_nil in H0.
  - destruct ws as [|w0 ws].
    + simpl in H0. injection H0 as <-. inversion Ht; [lia|].
      by destruct ws.
    + apply IH. done.
Qed.

Lemma tiling_covers from ws to :
  tiling from ws to →
  ∀ x, from ≤ x < to ↔ ∃ w, w ∈ ws ∧ w_start w ≤ x ≤ w_end w.
Proof.
  induction 1 as [|ws to w Ht IH Hs He Hr]; intros x.
  - split; [lia|]. intros (w & Hw & _). by apply elem_of_nil in Hw.
  - destruct (tiling_bounds _ _ _ Ht) as [Hle Hb]. split.
    + intros Hx. destruct (decide (x < to)) as [Hlt|Hge].
      * destruct (proj1 (IH x)) as (w' & Hw' & Hx'); [lia|].
        exists w'. split; [|done]. apply elem_of_app. by left.
      * exists w. split; [|lia]. apply elem_of_app. right.
        by apply list_elem_of_singleton.
    + intros (w' & [Hw'| ->%list_elem_of_singleton]%elem_of_app & Hx).
      * specialize (Hb w' Hw'). lia.
      * lia.
Qed.

Lemma issued_app out1 out2 : issued (out1 ++ out2) = issued out1 ++ issued out2.
Proof. apply omap_app. Qed.

Lemma issued_notify g : issued (notify_all_clients g) = [].
Proof.
  unfold notify_all_clients. induction (clients g) as [|cl l IH]; [done|].
  simpl. exact IH.
Qed.

(** An orderly region either sends no block and leaves the cursor, or sends
    one block that starts at the cursor, is not empty, ends inside the range,
    and moves the cursor to one past its end. It sends [no_work] only when
    the cursor is past the range. *)
Lemma orderly_exec x g :
  orderly x = true →
  (issued (exec x g).2 = [] ∧ current_number (exec x g).1 = current_number g
   ∨ ∃ w, issued (exec x g).2 = [w] ∧ w_start w = current_number g ∧
          w_start w ≤ w_end w ∧ w_end w ≤ END_NUMBER ∧
          current_number (exec x g).1 = w_end w + 1)
  ∧ ∀ c, Send c RNoWork ∈ (exec x g).2 → END_NUMBER < current_number g.
Proof.
  intros Hx. destruct x as [c cores|c cores|c message| |c]; simpl in *.
  - split; [by left|]. intros c' H. by apply elem_of_nil in H.
  - unfold locked_request_work.
    change (found (pop_assigned c g)) with (found g).
    change (current_number (pop_assigned c g)) with (current_number g).
    destruct (found g).
    { simpl. split; [by left|]. by intros c' [=]%list_elem_of_singleton. }
    destruct (as_int cores) as [k|].
    2:{ simpl. split; [by left|]. intros c' H. by apply elem_of_nil in H. }
    apply Z.leb_le in Hx.
    destruct (Z.ltb_spec END_NUMBER (current_number g)) as [Hlt|Hle]; simpl.
    { split; [by left|]. done. }
    split; [|by intros c' [=]%list_elem_of_singleton].
    right. eexists. split; [done|]. simpl.
    pose proof BLOCK_SIZE_PER_CORE_pos. split; [done|]. split; [nia|].
    split; [lia|done].
  - unfold locked_found.
    change (found (pop_assigned c g)) with (found g).
    destruct (found g); [|number_cases message]; simpl;
      (split; [by left|]); intros c' H;
      try (by apply elem_of_nil in H);
      by apply list_elem_of_singleton in H.
  - split; [left; split; [apply issued_notify|done]|].
    intros c. unfold notify_all_clients.
    intros (cl & [=] & _)%list_elem_of_fmap.
  - done.
Qed.

(** What an orderly run keeps true from the start of the server. *)
Lemma orderly_run tr :
  forallb orderly tr = true →
  tiling START_NUMBER (issued (run tr init_globals).2)
         (current_number (run tr init_globals).1)
  ∧ current_number (run tr init_globals).1 ≤ END_NUMBER + 1
  ∧ ((∃ c, Send c RNoWork ∈ (run tr init_globals).2) →
     current_number (run tr init_globals).1 = END_NUMBER + 1).
Proof.
  induction tr as [|x tr IH] using rev_ind; intros Hall.
  - simpl. split; [constructor|]. pose proof START_NUMBER_le_END as Hse.
    split; [lia|]. intros [c Hc]. by apply elem_of_nil in Hc.
  - rewrite forallb_app in Hall. apply andb_prop in Hall as [Htr Hx].
    simpl in Hx. rewrite andb_true_r in Hx.
    destruct (IH Htr) as (Ht & Hle & Hno). clear IH.
    rewrite run_snoc. destruct (run tr init_globals) as [g1 out1].
    simpl in Ht, Hle, Hno.
    destruct (orderly_exec x g1 Hx) as [Hstep Hnw].
    destruct (exec x g1) as [g2 out2]. simpl in *.
    rewrite issued_app.
    assert (Hnow : ∀ c, Send c RNoWork ∈ out2 → current_number g1 = END_NUMBER + 1).
    { intros c Hc. specialize (Hnw c Hc). lia. }
    destruct Hstep as [[-> Hcur]|(w & -> & Hs & Hne & He & Hcur)].
    + rewrite app_nil_r, Hcur. split; [done|]. split; [done|].
      intros [c [Hc|Hc]%elem_of_app]; eauto.
    + rewrite Hcur.
      split; [apply (tiling_snoc _ _ _ w Ht Hs); [lia|done]|]. split; [lia|].
      intros [c [Hc|Hc]%elem_of_app].
      * rewrite Hno in Hs by eauto. lia.
      * rewrite (Hnow c Hc) in Hs. lia.
Qed.

(** C3, as the code has it. Take any run of the server from its start in
    which no connection disconnects and every integer core count is at
    least 1 (line 54 stores whatever the worker declares). The blocks it
    sent out, in the order they were sent, are ordered by start and pairwise
    disjoint (an earlier block ends before a later one starts), none is
    empty, the first starts at [START_NUMBER], each next one starts right
    after the one before, and together they cover exactly the numbers from
    [START_NUMBER] up to the cursor. The cursor never passes
    [END_NUMBER + 1], and once a [no_work] was sent it is [END_NUMBER + 1]:
    the blocks then cover the whole range. *)
Theorem allocation_tiles (tr : list action) :
  forallb orderly tr = true →
  let g := (run tr init_globals).1 in
  let ws := issued (run tr init_globals).2 in
  (∀ i j wi wj, ws !! i = Some wi → ws !! j = Some wj → (i < j)%nat →
                w_end wi < w_start wj) ∧
  (∀ w, w ∈ ws → START_NUMBER ≤ w_start w ∧ w_start w ≤ w_end w ∧
                 w_end w ≤ END_NUMBER) ∧
  (∀ w, ws !! 0%nat = Some w → w_start w = START_NUMBER) ∧
  (∀ i wi wj, ws !! i = Some wi → ws !! S i = Some wj →
              w_start wj = w_end wi + 1) ∧
  (∀ x, START_NUMBER ≤ x < current_number g ↔
        ∃ w, w ∈ ws ∧ w_start w ≤ x ≤ w_end w) ∧
  current_number g ≤ END_NUMBER + 1 ∧
  ((∃ c, Send c RNoWork ∈ (run tr init_globals).2) →
   ∀ x, START_NUMBER ≤ x ≤ END_NUMBER ↔ ∃ w, w ∈ ws ∧ w_start w ≤ x ≤ w_end w).
Proof.
  intros Hall g ws. destruct (orderly_run tr Hall) as (Ht & Hle & Hno).
  fold g ws in Ht, Hle, Hno.
  destruct (tiling_bounds _ _ _ Ht) as [_ Hb].
  split; [exact (tiling_ordered _ _ _ Ht)|].
  split. { intros w Hw. specialize (Hb w Hw). lia. }
  split. { intros w. exact (tiling_first _ _ _ w Ht). }
  split; [exact (tiling_adjacent _ _ _ Ht)|].
  split; [exact (tiling_covers _ _ _ Ht)|].
  split; [done|].
  intros Hc x. rewrite <- (tiling_covers _ _ _ Ht x), (Hno Hc). lia.
Qed.

Lemma allocation_tiles_witness :
  issued (run three_requests init_globals).2 =
    [Work 0 99999; Work 100000 299999; Work 300000 399999] ∧
  ∀ x, START_NUMBER ≤ x < current_number (run three_requests init_globals).1 ↔
       ∃ w, w ∈ issued (run three_requests init_globals).2 ∧
            w_start w ≤ x ≤ w_end w.
Proof.
  split; [vm_compute; reflexivity|].
  exact (proj1 (proj2 (proj2 (proj2 (proj2
    (allocation_tiles three_requests eq_refl)))))).
Defined.

(** C3 as stated fails for a worker that declares a core count below 1:
    with -1 cores the block of connection 2 ends before it starts and the
    cursor goes back to 0, so the block from 0 to 99999 is sent a second
    time although nobody disconnected. *)
Lemma negative_cores_repeat_a_block :
  forallb (fun x => match x with ACleanup _ => false | _ => true end)
          negative_cores = true ∧
  issued (run negative_cores init_globals).2 =
    [Work 0 99999; Work 100000 (-1); Work 0 99999].
Proof. vm_compute. split; reflexivity. Qed.

(** ** Framing *)

(** The loop of lines 44-45 stops when the buffer has no line feed. *)
Lemma split_frames_rest (buffer : str) :
  LF ∉ buffer → split_frames buffer = ([], buffer).
Proof.
  induction buffer as [|ch tl IH]; [done|].
  intros Hnot. apply not_elem_of_cons in Hnot as [Hne Htl].
  simpl. rewrite (IH Htl).
  destruct (N.eqb_spec ch LF) as [->|_]; done.
Qed.

(** One pass of the loop: the text before the first line feed is the next
    frame, the text after it is the new buffer. *)
Lemma split_frames_frame (frame rest : str) :
  LF ∉ frame →
  split_frames (frame ++ LF :: rest) =
  (frame :: (split_frames rest).1, (split_frames rest).2).
Proof.
  induction frame as [|ch tl IH]; intros Hnot.
  - simpl. by destruct (split_frames rest).
  - apply not_elem_of_cons in Hnot as [Hne Htl].
    simpl. rewrite (IH Htl).
    destruct (N.eqb_spec ch LF) as [->|_]; done.
Qed.

Lemma split_frames_app (x y : str) :
  split_frames (x ++ y) =
  ((split_frames x).1 ++ (split_frames ((split_frames x).2 ++ y)).1,
   (split_frames ((split_frames x).2 ++ y)).2).
Proof.
  induction x as [|ch x IH].
  - simpl. by destruct (split_frames y).
  - simpl. rewrite IH. destruct (split_frames x) as [fx rx]. simpl.
    destruct (N.eqb_spec ch LF) as [->|Hne]; [done|].
    destruct fx as [|f fx]; simpl; [|done].
    destruct (split_frames (rx ++ y)) as [fy ry].
    destruct (N.eqb_spec ch LF) as [->|_]; [done|].
    by destruct fy.
Qed.

(** What stays in the buffer has no line feed. *)
Lemma split_frames_left (buffer : str) : LF ∉ (split_frames buffer).2.
Proof.
  induction buffer as [|ch tl IH]; simpl.
  - apply not_elem_of_nil.
  - destruct (split_frames tl) as [fs r]. simpl in IH.
    destruct (N.eqb_spec ch LF) as [->|Hne]; [done|].
    destruct fs; simpl; [|done].
    apply not_elem_of_cons. split; [congruence|done].
Qed.

(** No frame holds a line feed. *)
Lemma split_frames_frames (buffer : str) :
  Forall (fun frame => LF ∉ frame) (split_frames buffer).1.
Proof.
  induction buffer as [|ch tl IH]; simpl; [constructor|].
  destruct (split_frames tl) as [fs r]. simpl in IH.
  destruct (N.eqb_spec ch LF) as [->|Hne]; simpl.
  - constructor; [apply not_elem_of_nil|done].
  - destruct fs as [|f fs]; simpl; [constructor|].
    apply Forall_cons in IH as [Hf Hfs]. constructor; [|done].
    apply not_elem_of_cons. split; [congruence|done].
Qed.

(** The frames and the rest give the buffer back: nothing is lost or
    invented by the loop. *)
Lemma split_frames_join (buffer : str) :
  buffer =
  concat (map (fun frame => frame ++ [LF]) (split_frames buffer).1)
  ++ (split_frames buffer).2.
Proof.
  induction buffer as [|ch tl IH]; [done|]. simpl.
  destruct (split_frames tl) as [fs r]. simpl in IH.
  destruct (N.eqb_spec ch LF) as [->|Hne]; simpl; [by f_equal|].
  destruct fs as [|f fs]; simpl in *; by f_equal.
Qed.

(** ** Decoding *)

Lemma utf8_decode_app_bounded (n : nat) :
  ∀ bs1 bs2 s1 s2,
    (length bs1 ≤ n)%nat →
    utf8_decode bs1 = Some s1 →
    utf8_decode bs2 = Some s2 →
    utf8_decode (bs1 ++ bs2) = Some (s1 ++ s2).
Proof.
  induction n as [|n IH]; intros bs1 bs2 s1 s2 Hlen H1 H2.
  { destruct bs1; [|simpl in Hlen; lia]. simpl in *. by injection H1 as <-. }
  assert (Hrec : ∀ t ch,
            (length t ≤ n)%nat →
            cons ch <$> utf8_decode t = Some s1 →
            cons ch <$> utf8_decode (t ++ bs2) = Some (s1 ++ s2)).
  { intros t ch Ht Hd. destruct (utf8_decode t) as [s|] eqn:Es; [|done].
    injection Hd as <-. by rewrite (IH t bs2 s s2 Ht Es H2). }
  destruct bs1 as [|b0 t0]; [simpl in *; by injection H1 as <-|].
  cbn [utf8_decode app] in *. cbn [length] in Hlen.
  destruct (b0 <? 128)%N; [apply Hrec; [lia|done]|].
  destruct (in_range 194 223 b0).
  { destruct t0 as [|b1 t1]; [done|]. cbn [app length] in *.
    destruct (in_range 128 191 b1); [|done]. apply Hrec; [lia|done]. }
  destruct (in_range 224 239 b0).
  { destruct t0 as [|b1 [|b2 t2]]; [done..|]. cbn [app length] in *.
    destruct (_ && _); [|done]. apply Hrec; [lia|done]. }
  destruct (in_range 240 244 b0); [|done].
  destruct t0 as [|b1 [|b2 [|b3 t3]]]; [done..|]. cbn [app length] in *.
  destruct (_ && _); [|done]. apply Hrec; [lia|done].
Qed.

Lemma utf8_decode_app bs1 bs2 s1 s2 :
  utf8_decode bs1 = Some s1 →
  utf8_decode bs2 = Some s2 →
  utf8_decode (bs1 ++ bs2) = Some (s1 ++ s2).
Proof. by apply (utf8_decode_app_bounded (length bs1)). Qed.

(** Chunks that decode one by one decode to the same text when joined. *)
Lemma decode_app chunk1 chunk2 s1 s2 :
  decode chunk1 = Some s1 →
  decode chunk2 = Some s2 →
  decode (chunk1 ++ chunk2) = Some (s1 ++ s2).
Proof. unfold decode. rewrite map_app. apply utf8_decode_app. Qed.

Lemma decode_nil_inv chunk : decode chunk = Some [] → chunk = [].
Proof.
  unfold decode. destruct chunk as [|b0 t0]; [done|].
  cbn [map utf8_decode]. intros H. exfalso.
  repeat (case_match; try done);
    match goal with
    | H : cons _ <$> ?d = Some [] |- _ => by destruct d
    end.
Qed.

(** ASCII bytes decode to themselves, so a chunk of ASCII bytes that is not
    empty is [whole] wherever the stream was cut. *)
Lemma utf8_decode_ascii (bs : list N) :
  Forall (fun b => (b < 128)%N) bs → utf8_decode bs = Some bs.
Proof.
  induction 1 as [|b bs Hb _ IH]; [done|].
  cbn [utf8_decode]. apply N.ltb_lt in Hb. by rewrite Hb, IH.
Qed.

Lemma ascii_chunk_whole (chunk : list Byte.byte) :
  chunk ≠ [] →
  Forall (fun b => (Byte.to_N b < 128)%N) chunk →
  whole chunk = true.
Proof.
  intros Hne Hascii. unfold whole, decode.
  rewrite utf8_decode_ascii by by apply Forall_fmap.
  by destruct chunk.
Qed.

(** ** Sessions *)

Lemma eq_lit_true (v : pyval) (s : string) : eq_lit v s = true → v = PStr (lit s).
Proof.
  destruct v; try done. simpl. intros H. apply bool_decide_eq_true in H.
  by subst.
Qed.

Lemma after_after out1 out2 o : after out1 (after out2 o) = after (out1 ++ out2) o.
Proof. unfold after. simpl. by rewrite app_assoc. Qed.

Lemma after_nil o : after [] o = o.
Proof. by destruct o. Qed.

Lemma sends_app out1 out2 : sends (out1 ++ out2) = sends out1 ++ sends out2.
Proof. apply List.filter_app. Qed.

Lemma sends_notify g : sends (notify_all_clients g) = notify_all_clients g.
Proof.
  unfold notify_all_clients, sends.
  induction (clients g) as [|cl l IH]; [done|]. simpl. by rewrite IH.
Qed.

Lemma stops_to_app c out1 out2 :
  stops_to c (out1 ++ out2) = (stops_to c out1 + stops_to c out2)%nat.
Proof. unfold stops_to. by rewrite List.filter_app, length_app. Qed.

(** The broadcast sends [c] one [stop] for each of its entries. *)
Lemma stops_to_notify c g : stops_to c (notify_all_clients g) = entries c g.
Proof.
  unfold notify_all_clients, stops_to, entries.
  induction (clients g) as [|cl l IH]; [done|].
  rewrite filter_cons. simpl. destruct (decide (c_conn cl = c)) as [He|Hne].
  - rewrite bool_decide_eq_true_2 by done. simpl. by rewrite IH.
  - rewrite bool_decide_eq_false_2 by done. exact IH.
Qed.

Lemma entries_register c c' cores g :
  entries c (locked_register c' cores g) =
  (entries c g + if decide (c' = c) then 1 else 0)%nat.
Proof.
  unfold entries, locked_register. simpl.
  rewrite filter_app, length_app, filter_cons, filter_nil. simpl.
  by destruct (decide (c' = c)).
Qed.

Section SessionProperties.

Variable json_loads : str → loads_result.
Variable c : conn.
Variable a : addr.


Lemma handle_message_found message client_cores g :
  is_found_message message →
  handle_message c a message client_cores g =
  match (locked_found c message g).2 with
  | Some e =>
      Outcome (locked_found c message g).1.1 client_cores
              (locked_found c message g).1.2 (Some e)
  | None =>
      Outcome (locked_found c message g).1.1 client_cores
              ((locked_found c message g).1.2
               ++ notify_all_clients (locked_found c message g).1.1) None
  end.
Proof.
  intros (type & Ht & He). apply eq_lit_true in He as ->.
  unfold handle_message. rewrite Ht.
  change (eq_lit (PStr (lit "found")) "register") with false.
  change (eq_lit (PStr (lit "found")) "request_work") with false.
  change (eq_lit (PStr (lit "found")) "found") with true.
  cbv iota. unfold handle_found.
  by destruct (locked_found c message g) as [[g' out] [e|]].
Qed.

Lemma handle_frames_app frames1 frames2 client_cores g :
  handle_frames json_loads c a (frames1 ++ frames2) client_cores g =
  let o := handle_frames json_loads c a frames1 client_cores g in
  match o_raised o with
  | Some _ => o
  | None =>
      after (o_out o)
            (handle_frames json_loads c a frames2 (o_cores o) (o_glob o))
  end.
Proof.
  revert client_cores g.
  induction frames1 as [|frame frames1 IH]; intros client_cores g.
  - simpl. by rewrite after_nil.
  - cbn [app handle_frames]. destruct (json_loads frame) as [message| |].
    + destruct (o_raised (handle_message c a message client_cores g)) eqn:Er.
      * simpl. by rewrite Er.
      * rewrite IH. simpl.
        destruct (o_raised (handle_frames json_loads c a frames1 _ _));
          [done|]. by rewrite after_after.
    + rewrite IH. simpl.
      destruct (o_raised (handle_frames json_loads c a frames1 _ _));
        [done|]. by rewrite after_after.
    + done.
Qed.

(** The inner loop on a buffer that starts with a frame [json.loads]
    rejects: one diagnostic, then the loop as it runs on the rest. *)
Lemma drain_undecodable (next : str → pyval → globals → outcome)
      (frame rest : str) (client_cores : pyval) (g : globals) :
  LF ∉ frame →
  json_loads frame = JSONDecodeError →
  drain json_loads c a next (frame ++ LF :: rest) client_cores g =
  after [Print (LogJSONDecodeError a)]
        (drain json_loads c a next rest client_cores g).
Proof.
  intros Hframe Hbad. unfold drain. rewrite (split_frames_frame _ _ Hframe).
  destruct (split_frames rest) as [frames buffer']. cbn [fst snd handle_frames].
  rewrite Hbad. simpl.
  destruct (o_raised (handle_frames json_loads c a frames client_cores g));
    [done|]. by rewrite after_after.
Qed.

(** C7, as the code has it. Let a chunk arrive that completes a frame (the
    buffer and the chunk together read [frame], a line feed, [rest]) which
    [json.loads] rejects with [JSONDecodeError]. The session prints one
    diagnostic and nothing else happens for that frame: it goes on with the
    frames in [rest] and then with the chunks that follow, from the same
    globals and the same core count. *)
Theorem undecodable_frame_is_dropped
        (chunk : list Byte.byte) (chunks : list (list Byte.byte))
        (buffer data frame rest : str) (client_cores : pyval) (g : globals) :
  decode chunk = Some data →
  data ≠ [] →
  buffer ++ data = frame ++ LF :: rest →
  LF ∉ frame →
  json_loads frame = JSONDecodeError →
  recv_loop json_loads c a (chunk :: chunks) buffer client_cores g =
  after [Print (LogJSONDecodeError a)]
        (drain json_loads c a (recv_loop json_loads c a chunks) rest
               client_cores g).
Proof.
  intros Hd Hne Hcut Hframe Hbad. cbn [recv_loop]. rewrite Hd.
  destruct data as [|d ds]; [done|]. rewrite Hcut.
  by apply drain_undecodable.
Qed.

(** The receive loop over whole chunks handles the frames of the joined
    text, in order, each once. *)
Lemma recv_loop_frames chunks :
  ∀ buffer client_cores g,
    forallb whole chunks = true →
    LF ∉ buffer →
    ∃ data, decode (concat chunks) = Some data ∧
            recv_loop json_loads c a chunks buffer client_cores g =
            handle_frames json_loads c a (split_frames (buffer ++ data)).1
                          client_cores g.
Proof.
  induction chunks as [|chunk chunks IH]; intros buffer client_cores g Hall Hb.
  - exists []. split; [done|]. by rewrite app_nil_r, split_frames_rest.
  - simpl in Hall. apply andb_prop in Hall as [Hw Hall]. unfold whole in Hw.
    destruct (decode chunk) as [[|d ds]|] eqn:Ed; try done.
    cbn [recv_loop]. rewrite Ed. unfold drain.
    pose proof (split_frames_left (buffer ++ d :: ds)) as Hleft.
    destruct (split_frames (buffer ++ d :: ds)) as [frames buffer'] eqn:Es.
    simpl in Hleft.
    set (o := handle_frames json_loads c a frames client_cores g).
    destruct (IH buffer' (o_cores o) (o_glob o) Hall Hleft)
      as (data' & Hd' & Hrec).
    exists ((d :: ds) ++ data'). split; [by apply decode_app|].
    rewrite app_assoc, split_frames_app, Es. cbn [fst snd].
    rewrite handle_frames_app. fold o. cbv zeta.
    destruct (o_raised o); [done|]. by rewrite Hrec.
Qed.

(** C9, as the code has it. Each chunk is decoded on its own (line 39),
    so the claim holds for chunks that are not empty and are valid UTF-8
    one by one: the session then handles exactly the line-feed-terminated
    frames of the joined text, in order and each once, and two such ways
    of cutting the same bytes give the same session: the same globals,
    the same messages sent, the same lines printed. *)
Theorem chunk_boundaries_do_not_matter
        (chunks1 chunks2 : list (list Byte.byte)) (g : globals) :
  forallb whole chunks1 = true →
  forallb whole chunks2 = true →
  concat chunks1 = concat chunks2 →
  (∃ data, decode (concat chunks1) = Some data ∧
           recv_loop json_loads c a chunks1 [] (PInt 1) g =
           handle_frames json_loads c a (split_frames data).1 (PInt 1) g) ∧
  handle_client json_loads c a chunks1 g =
  handle_client json_loads c a chunks2 g.
Proof.
  intros H1 H2 Hcat.
  destruct (recv_loop_frames chunks1 [] (PInt 1) g H1 (not_elem_of_nil _))
    as (data1 & Hd1 & Hr1).
  destruct (recv_loop_frames chunks2 [] (PInt 1) g H2 (not_elem_of_nil _))
    as (data2 & Hd2 & Hr2).
  simpl in Hr1, Hr2. split; [eauto|].
  assert (data1 = data2) as -> by congruence.
  unfold handle_client. by rewrite Hr1, Hr2.
Qed.

(** C5, as the code has it. A [found] message that can be handled (something
    was found before, or it carries a number that line 103 can print) is
    followed by the broadcast whether or not it was the first: line 106 is
    reached, and whatever the other threads do between the release of the
    lock after line 103 and the broadcast, what is sent is exactly one
    [stop] per entry [clients] has when the broadcast takes the lock, so
    each connection gets as many [stop]s as it has entries then. *)
Theorem found_message_always_broadcasts (between : list action)
        (message client_cores : pyval) (g : globals) :
  is_found_message message →
  (found g = false →
   ∃ number, getitem message (lit "number") = inr number ∧
             print_ok number = true) →
  handle_message c a message client_cores g =
    handle_found c [] message client_cores g ∧
  let o := handle_found c between message client_cores g in
  o_raised o = None ∧
  o_glob o = (run between (locked_found c message g).1.1).1 ∧
  sends (o_out o) = notify_all_clients (o_glob o) ∧
  ∀ c', stops_to c' (o_out o) = entries c' (o_glob o).
Proof.
  intros Hm Hnum. split.
  { destruct Hm as (type & Ht & He). apply eq_lit_true in He as ->.
    unfold handle_message. by rewrite Ht. }
  unfold handle_found, locked_found.
  change (found (pop_assigned c g)) with (found g).
  destruct (found g) eqn:Hf.
  - cbn [fst snd app o_raised o_glob o_out]. split; [done|]. split; [done|].
    split; [apply sends_notify|]. intros c'. by rewrite stops_to_notify.
  - destruct (Hnum eq_refl) as (number & -> & ->).
    cbn [fst snd o_raised o_glob o_out]. split; [done|]. split; [done|].
    split.
    + rewrite sends_app. apply sends_notify.
    + intros c'. by rewrite stops_to_app, stops_to_notify.
Qed.


End SessionProperties.

(** ** The sessions of the examples *)

Lemma undecodable_frame_is_dropped_witness :
  recv_loop example_loads 1%nat peer
    [wire "ps" ++ [Byte.x0a] ++ wire "{'type':'request_work'}" ++ [Byte.x0a]]
    (text "oo") (PInt 1) init_globals =
  after [Print (LogJSONDecodeError peer)]
        (drain example_loads 1%nat peer (recv_loop example_loads 1%nat peer [])
               (text "{'type':'request_work'}" ++ [LF]) (PInt 1) init_globals).
Proof.
  apply (undecodable_frame_is_dropped example_loads 1%nat peer _ []
           (text "oo") (text "ps" ++ LF :: text "{'type':'request_work'}" ++ [LF])
           (text "oops")).
  - vm_compute. reflexivity.
  - discriminate.
  - vm_compute. reflexivity.
  - apply (bool_decide_unpack _). vm_compute. exact I.
  - vm_compute. reflexivity.
Defined.

(** C7 as stated fails for a frame that is JSON but no message of the
    protocol: [{}] has no ['type'], line 52 raises [KeyError], and the
    session is over: the error is printed, the connection is closed, and
    the work request in the next chunk is never read. *)
Lemma object_without_type_ends_session :
  handle_client example_loads 1%nat peer
    [wire "{}" ++ [Byte.x0a]; wire "{'type':'request_work'}" ++ [Byte.x0a]]
    init_globals =
  (init_globals,
   [Print (LogConnected peer);
    Print (LogError peer (KeyError (lit "type")));
    Close 1%nat;
    Print (LogDisconnected peer)]).
Proof. vm_compute. reflexivity. Qed.

Lemma chunk_boundaries_do_not_matter_witness :
  handle_client example_loads 1%nat peer register_in_two init_globals =
  handle_client example_loads 1%nat peer register_in_one init_globals.
Proof.
  apply (chunk_boundaries_do_not_matter example_loads 1%nat peer
           register_in_two register_in_one init_globals);
    vm_compute; reflexivity.
Defined.

(** C9 as stated fails when a chunk ends inside a character: in one piece
    the request is answered with the first block; cut between the two bytes
    of the é, the first chunk does not decode, line 39 raises
    [UnicodeDecodeError] and the session ends without handling any frame. *)
Lemma cut_character_ends_session :
  concat [tagged_head ++ tagged_tail] = concat [tagged_head; tagged_tail] ∧
  handle_client example_loads 1%nat peer [tagged_head ++ tagged_tail]
                init_globals =
  (init_globals,
   [Print (LogConnected peer);
    Send 1%nat (RWork 0 99999 TARGET_HASH);
    Close 1%nat;
    Print (LogDisconnected peer)]) ∧
  handle_client example_loads 1%nat peer [tagged_head; tagged_tail]
                init_globals =
  (init_globals,
   [Print (LogConnected peer);
    Print (LogError peer UnicodeDecodeError);
    Close 1%nat;
    Print (LogDisconnected peer)]).
Proof. vm_compute. repeat split. Qed.

Lemma found_message_always_broadcasts_witness :
  stops_to 3%nat
    (o_out (handle_found 2%nat [ARegister 3%nat (PInt 2)]
                         (found_message (PInt 43)) (PInt 1)
                         two_registered)) =
  entries 3%nat
    (o_glob (handle_found 2%nat [ARegister 3%nat (PInt 2)]
                          (found_message (PInt 43)) (PInt 1)
                          two_registered)).
Proof.
  refine (proj2 (proj2 (proj2 (proj2
    (found_message_always_broadcasts 2%nat peer [ARegister 3%nat (PInt 2)]
       (found_message (PInt 43)) (PInt 1) two_registered _ _)))) 3%nat).
  - exists (PStr (lit "found")). split; reflexivity.
  - intros _. exists (PInt 43). split; reflexivity.
Defined.

(** C5 as stated fails for a late report: 42 was recorded and broadcast;
    the report of 43 does not change [found_number], and still every entry
    of [clients] is sent [stop] again. *)
Lemma late_report_broadcasts_again :
  found after_first_report = true ∧
  found_number after_first_report = PInt 42 ∧
  found_number (o_glob (handle_message 2%nat peer (found_message (PInt 43))
                                       (PInt 1) after_first_report)) = PInt 42 ∧
  o_out (handle_message 2%nat peer (found_message (PInt 43)) (PInt 1)
                        after_first_report) =
  [Send 1%nat RStop; Send 2%nat RStop].
Proof. vm_compute. repeat split. Qed.



(** ** Sessions are runs *)

Lemma evolves_refl g : evolves g g.
Proof. by exists []. Qed.

Lemma evolves_trans g1 g2 g3 : evolves g1 g2 → evolves g2 g3 → evolves g1 g3.
Proof.
  intros [tr1 ->] [tr2 ->]. exists (tr1 ++ tr2). rewrite run_app.
  destruct (run tr1 g1) as [g out]. simpl. by destruct (run tr2 g).
Qed.

Lemma evolves_exec x g : evolves g (exec x g).1.
Proof. exists [x]. simpl. by destruct (exec x g). Qed.

Lemma evolves_reachable g g' : reachable g → evolves g g' → reachable g'.
Proof. intros Hg [tr ->]. by apply reachable_run. Qed.

Section SessionsAreRuns.

Variable json_loads : str → loads_result.
Variable c : conn.
Variable a : addr.

Lemma handle_message_evolves message client_cores g :
  evolves g (o_glob (handle_message c a message client_cores g)).
Proof.
  unfold handle_message.
  destruct (getitem message (lit "type")) as [e|type]; [apply evolves_refl|].
  destruct (eq_lit type "register").
  { destruct (getitem message (lit "cores")) as [e|cores];
      [apply evolves_refl|].
    destruct (print_ok cores); apply (evolves_exec (ARegister c cores)). }
  destruct (eq_lit type "request_work").
  { pose proof (evolves_exec (ARequestWork c client_cores) g) as H.
    simpl in H. by destruct (locked_request_work c client_cores g). }
  destruct (eq_lit type "found"); [|apply evolves_refl].
  pose proof (evolves_exec (AFound c message) g) as H. simpl in H.
  unfold handle_found.
  by destruct (locked_found c message g) as [[g' out] [e|]].
Qed.

Lemma handle_frames_evolves frames client_cores g :
  evolves g (o_glob (handle_frames json_loads c a frames client_cores g)).
Proof.
  revert client_cores g.
  induction frames as [|frame frames IH]; intros client_cores g;
    [apply evolves_refl|].
  cbn [handle_frames]. destruct (json_loads frame) as [message| |].
  - pose proof (handle_message_evolves message client_cores g) as H.
    destruct (o_raised (handle_message c a message client_cores g));
      [done|]. exact (evolves_trans _ _ _ H (IH _ _)).
  - apply IH.
  - apply evolves_refl.
Qed.

Lemma recv_loop_evolves chunks buffer client_cores g :
  evolves g (o_glob (recv_loop json_loads c a chunks buffer client_cores g)).
Proof.
  revert buffer client_cores g.
  induction chunks as [|chunk chunks IH]; intros buffer client_cores g;
    [apply evolves_refl|].
  cbn [recv_loop]. destruct (decode chunk) as [[|d ds]|];
    [apply evolves_refl| |apply evolves_refl].
  unfold drain. destruct (split_frames (buffer ++ d :: ds)) as [frames rest].
  pose proof (handle_frames_evolves frames client_cores g) as H.
  destruct (o_raised (handle_frames json_loads c a frames client_cores g));
    [done|]. exact (evolves_trans _ _ _ H (IH _ _ _)).
Qed.

(** A whole session, from connect to close, is a run of regions: what
    holds after every run holds after every session. *)
Lemma handle_client_evolves chunks g :
  evolves g (handle_client json_loads c a chunks g).1.
Proof.
  unfold handle_client. cbn [fst].
  exact (evolves_trans _ _ _ (recv_loop_evolves chunks [] (PInt 1) g)
                       (evolves_exec (ACleanup c) _)).
Qed.

End SessionsAreRuns.

(** ** Entries across a run *)

(** X14. While [c] stays connected, whatever the other connections do, [c] has
    one entry in [clients] for each of its registrations. *)
Lemma entries_run c tr g :
  stays c tr = true →
  entries c (run tr g).1 = (entries c g + registrations c tr)%nat.
Proof.
  revert g. induction tr as [|x tr IH]; intros g Hs.
  - simpl. unfold registrations. simpl. lia.
  - unfold stays in Hs. simpl in Hs. apply andb_prop in Hs as [Hx Hs].
    simpl. destruct (exec x g) as [g1 out1] eqn:Ex.
    specialize (IH g1 Hs). destruct (run tr g1) as [g2 out2]. simpl in *.
    rewrite IH. unfold registrations. simpl.
    assert (entries c g1 =
            (entries c g + if match x with
                              | ARegister c' _ => bool_decide (c' = c)
                              | _ => false
                              end then 1 else 0)%nat) as ->.
    { destruct x as [c' cores|c' cores|c' message| |c']; simpl in Ex.
      - injection Ex as <- <-. rewrite entries_register.
        by destruct (decide (c' = c)); [rewrite bool_decide_eq_true_2
                                       |rewrite bool_decide_eq_false_2].
      - assert (clients g1 = clients g) as Hcl.
        { unfold locked_request_work in Ex.
          change (found (pop_assigned c' g)) with (found g) in Ex.
          destruct (found g); [by injection Ex as <- <-|].
          destruct (as_int cores); [|by injection Ex as <- <-].
          destruct (_ <? _); by injection Ex as <- <-. }
        unfold entries. rewrite Hcl. lia.
      - assert (clients g1 = clients g) as Hcl.
        { pose proof (locked_found_clients c' message g) as H.
          destruct (locked_found c' message g) as [[g' out] e].
          by injection Ex as <- <-. }
        unfold entries. rewrite Hcl. lia.
      - injection Ex as <- <-. lia.
      - injection Ex as <- <-. apply negb_true_iff, bool_decide_eq_false in Hx.
        unfold entries, locked_cleanup. simpl.
        rewrite Nat.add_0_r. f_equal.
        rewrite list_filter_filter. apply list_filter_iff.
        intros cl. split; [by intros [? ?]|]. intros <-. split; [done|].
        congruence. }
    destruct (match x with ARegister c' _ => bool_decide (c' = c) | _ => false end);
      simpl; lia.
Qed.

(** * Further properties of the coordinator *)

(** ** The flag and the number *)

Lemma no_report_exec x g :
  no_report x = true →
  found (exec x g).1 = found g ∧ found_number (exec x g).1 = found_number g.
Proof.
  intros Hx. destruct x as [c cores|c cores|c message| |c]; try done.
  simpl. unfold locked_request_work.
  change (found (pop_assigned c g)) with (found g).
  destruct (found g) eqn:Hf; [by rewrite <- Hf|].
  destruct (as_int cores); [|by rewrite <- Hf].
  destruct (_ <? _); by rewrite <- Hf.
Qed.

Lemma no_report_run tr g :
  forallb no_report tr = true →
  found (run tr g).1 = found g ∧ found_number (run tr g).1 = found_number g.
Proof.
  revert g. induction tr as [|x tr IH]; intros g Hall; [done|].
  simpl in Hall. apply andb_prop in Hall as [Hx Hall]. simpl.
  destruct (no_report_exec x g Hx) as [Hf Hn].
  destruct (exec x g) as [g1 out1]. simpl in *.
  destruct (IH g1 Hall) as [Hf' Hn'].
  destruct (run tr g1) as [g2 out2]. simpl in *. split; congruence.
Qed.

(** X6. Only a report sets the flag: a run that ends with [found] set, from a
    state where it was not, contains a [found] region, and up to the first
    one nothing else has set it. *)
Theorem flag_needs_report (tr : list action) (g : globals) :
  found g = false →
  found (run tr g).1 = true →
  ∃ pre c message post,
    tr = pre ++ AFound c message :: post ∧
    forallb no_report pre = true ∧
    found (run pre g).1 = false.
Proof.
  revert g. induction tr as [|x tr IH]; intros g Hf Ht; [simpl in Ht; congruence|].
  destruct (no_report x) eqn:Hx.
  - simpl in Ht. destruct (no_report_exec x g Hx) as [Hf1 _].
    destruct (exec x g) as [g1 out1] eqn:Ex. simpl in Hf1.
    assert (found (run tr g1).1 = true) as Ht1.
    { by destruct (run tr g1). }
    destruct (IH g1 ltac:(congruence) Ht1)
      as (pre & c & message & post & -> & Hpre & Hfp).
    exists (x :: pre), c, message, post. split; [done|]. split.
    + simpl. by rewrite Hx.
    + simpl. rewrite Ex. by destruct (run pre g1).
  - destruct x as [| |c message| |]; try done.
    by exists [], c, message, tr.
Qed.

Lemma flag_needs_report_witness :
  ∃ pre c message post,
    two_reports = pre ++ AFound c message :: post ∧
    forallb no_report pre = true ∧
    found (run pre init_globals).1 = false.
Proof.
  apply (flag_needs_report two_reports init_globals); reflexivity.
Defined.

(** X5. The first report wins: when the first [found] region of a run carries
    the number [V], then at the end of the run, whatever came after it,
    [found] is set and [found_number] is [V]. *)
Theorem first_report_wins (pre post : list action) (c : conn)
        (message V : pyval) (g : globals) :
  found g = false →
  forallb no_report pre = true →
  getitem message (lit "number") = inr V →
  found (run (pre ++ AFound c message :: post) g).1 = true ∧
  found_number (run (pre ++ AFound c message :: post) g).1 = V.
Proof.
  intros Hf Hpre HV. rewrite run_app.
  destruct (no_report_run pre g Hpre) as [Hf1 _].
  destruct (run pre g) as [g1 out1]. simpl in Hf1.
  change (run (AFound c message :: post) g1)
    with (let '(g2, out2) := exec (AFound c message) g1 in
          let '(g3, out3) := run post g2 in (g3, out2 ++ out3)).
  assert (found (exec (AFound c message) g1).1 = true ∧
          found_number (exec (AFound c message) g1).1 = V) as [Hf2 Hn2].
  { simpl. unfold locked_found.
    change (found (pop_assigned c g1)) with (found g1).
    rewrite Hf1, Hf, HV. by destruct (print_ok V). }
  destruct (exec (AFound c message) g1) as [g2 out2]. simpl in Hf2, Hn2.
  destruct (found_stays_run post g2 Hf2) as [Hf3 Hn3].
  destruct (run post g2) as [g3 out3]. simpl in *. split; congruence.
Qed.

Lemma first_report_wins_witness :
  found (run two_reports init_globals).1 = true ∧
  found_number (run two_reports init_globals).1 = PInt 42.
Proof.
  apply (first_report_wins
           [ARequestWork 1%nat (PInt 1); ARegister 2%nat (PInt 1)]
           [AFound 2%nat (found_message (PInt 43))]
           1%nat (found_message (PInt 42)) (PInt 42) init_globals);
    reflexivity.
Defined.

(** X7. While nothing was found no number is stored: in every state the server
    can reach, [found = False] comes with [found_number = None]. *)
Theorem no_number_before_found (g : globals) :
  reachable g → found g = false → found_number g = PNone.
Proof.
  revert g. apply (reachable_ind (fun g => found g = false → found_number g = PNone));
    [done|].
  intros x g IH. destruct (no_report x) eqn:Hx.
  - destruct (no_report_exec x g Hx) as [-> ->]. exact IH.
  - destruct x as [| |c message| |]; try done.
    intros Hf. pose proof (locked_found_sets c message g) as Hs.
    simpl in Hf. destruct (locked_found c message g) as [[g' out] e].
    simpl in *. congruence.
Qed.

Lemma no_number_before_found_witness :
  found_number (run one_gone init_globals).1 = PNone.
Proof.
  apply (no_number_before_found (run one_gone init_globals).1).
  - exists one_gone. reflexivity.
  - reflexivity.
Defined.

(** X4. A first report without ['number']: line 101 has set the flag when line
    102 raises [KeyError]. The session ends without any broadcast, every
    later request is refused, and no later report can store a number:
    [found_number] stays what it was. *)
Theorem report_without_number (c : conn) (a : addr)
        (message client_cores : pyval) (g : globals) (e : exn)
        (tr : list action) :
  is_found_message message →
  found g = false →
  getitem message (lit "number") = inl e →
  let o := handle_message c a message client_cores g in
  o_raised o = Some e ∧
  o_out o = [] ∧
  found (o_glob o) = true ∧
  found (run tr (o_glob o)).1 = true ∧
  found_number (run tr (o_glob o)).1 = found_number g.
Proof.
  intros Hm Hf He o. subst o. rewrite (handle_message_found c a _ _ _ Hm).
  unfold locked_found. change (found (pop_assigned c g)) with (found g).
  rewrite Hf, He. cbn [fst snd o_raised o_out o_glob].
  split; [done|]. split; [done|]. split; [done|].
  match goal with
  | |- context [run tr ?g'] =>
      destruct (found_stays_run tr g' eq_refl) as [H1 H2]
  end.
  split; [done|]. by rewrite H2.
Qed.

Lemma report_without_number_witness :
  found_number
    (run [AFound 2%nat (found_message (PInt 43))]
       (o_glob (handle_message 1%nat peer
                  (PDict [(lit "type", PStr (lit "found"))]) (PInt 1)
                  init_globals))).1 = PNone.
Proof.
  refine (proj2 (proj2 (proj2 (proj2
    (report_without_number 1%nat peer
       (PDict [(lit "type", PStr (lit "found"))]) (PInt 1) init_globals
       (KeyError (lit "number")) [AFound 2%nat (found_message (PInt 43))]
       _ _ _))))).
  - exists (PStr (lit "found")). split; reflexivity.
  - reflexivity.
  - reflexivity.
Defined.

(** ** The end of the range *)

Lemma issued_exec_below_end x g w :
  w ∈ issued (exec x g).2 → w_start w ≤ END_NUMBER ∧ w_end w ≤ END_NUMBER.
Proof.
  destruct x as [c cores|c cores|c message| |c]; simpl.
  - intros H. by apply elem_of_nil in H.
  - unfold locked_request_work.
    destruct (found (pop_assigned c g)).
    { simpl. intros H. by apply elem_of_nil in H. }
    destruct (as_int cores) as [k|].
    2:{ simpl. intros H. by apply elem_of_nil in H. }
    destruct (Z.ltb_spec END_NUMBER (current_number (pop_assigned c g)))
      as [Hlt|Hle].
    { simpl. intros H. by apply elem_of_nil in H. }
    simpl. intros ->%list_elem_of_singleton. simpl in *. lia.
  - unfold locked_found. destruct (found (pop_assigned c g)).
    { simpl. intros H. by apply elem_of_nil in H. }
    number_cases message; simpl; intros H;
      by apply elem_of_nil in H.
  - rewrite issued_notify. intros H. by apply elem_of_nil in H.
  - intros H. by apply elem_of_nil in H.
Qed.

Lemma below_end_exec x g : below_end g → below_end (exec x g).1.
Proof.
  intros [Hcur Htbl].
  assert (Hdel : ∀ c c' w, delete c (assigned_work g) !! c' = Some w →
                           w_start w ≤ END_NUMBER ∧ w_end w ≤ END_NUMBER).
  { intros c c' w [_ H]%lookup_delete_Some. eauto. }
  destruct x as [c cores|c cores|c message| |c]; simpl.
  - done.
  - unfold locked_request_work.
    change (found (pop_assigned c g)) with (found g).
    change (current_number (pop_assigned c g)) with (current_number g).
    destruct (found g); [split; [done|apply Hdel]|].
    destruct (as_int cores) as [k|]; [|split; [done|apply Hdel]].
    destruct (Z.ltb_spec END_NUMBER (current_number g)) as [Hlt|Hle];
      [split; [done|apply Hdel]|].
    split; simpl; [lia|].
    intros c' w [[_ <-]|[_ H']]%lookup_insert_Some; simpl; [lia|eauto].
  - unfold locked_found. change (found (pop_assigned c g)) with (found g).
    destruct (found g); [split; [done|apply Hdel]|].
    number_cases message; (split; [done|apply Hdel]).
  - done.
  - split; [|apply Hdel]. simpl.
    destruct (assigned_work g !! c) as [w|] eqn:Hw; [|done].
    destruct (Htbl c w Hw). lia.
Qed.

(** X8. When every work request is made with an integer core count, of any
    sign, then whoever disconnects the server never goes past the end of
    the range: after every such run from its start the cursor is at most
    [END_NUMBER + 1], and every block that was sent out or is in the table
    starts and ends at or below [END_NUMBER]. *)
Theorem never_past_the_end (tr : list action) :
  forallb integral tr = true →
  below_end (run tr init_globals).1 ∧
  ∀ w, w ∈ issued (run tr init_globals).2 →
       w_start w ≤ END_NUMBER ∧ w_end w ≤ END_NUMBER.
Proof.
  intros _. induction tr as [|x tr [IHg IHw]] using rev_ind.
  - simpl. split; [split|].
    + simpl. pose proof START_NUMBER_le_END. lia.
    + intros c w. simpl. by rewrite lookup_empty.
    + intros w H. by apply elem_of_nil in H.
  - rewrite run_snoc. destruct (run tr init_globals) as [g1 out1].
    simpl in IHg, IHw.
    pose proof (below_end_exec x g1 IHg) as Hg.
    pose proof (issued_exec_below_end x g1) as Hw.
    destruct (exec x g1) as [g2 out2]. simpl in *. split; [done|].
    intros w. rewrite issued_app. intros [H|H]%elem_of_app; eauto.
Qed.

Lemma never_past_the_end_witness :
  below_end (run negative_cores init_globals).1.
Proof. exact (proj1 (never_past_the_end negative_cores eq_refl)). Defined.

(** ** Blocks held at the same time *)

Lemma held_apart_delete c g g' :
  held_apart g →
  current_number g' = current_number g →
  assigned_work g' = delete c (assigned_work g) →
  held_apart g'.
Proof.
  intros [Hin Hpair] Hcur Htbl. split.
  - intros c1 w. rewrite Htbl, Hcur. intros [_ H]%lookup_delete_Some. eauto.
  - intros c1 c2 w1 w2 Hne. rewrite Htbl.
    intros [_ H1]%lookup_delete_Some [_ H2]%lookup_delete_Some. eauto.
Qed.

Lemma held_apart_exec x g :
  orderly x = true → held_apart g → held_apart (exec x g).1.
Proof.
  intros Hx Hg. destruct x as [c cores|c cores|c message| |c]; simpl in *;
    try done.
  - unfold locked_request_work.
    change (found (pop_assigned c g)) with (found g).
    change (current_number (pop_assigned c g)) with (current_number g).
    destruct (found g); [by apply (held_apart_delete c g)|].
    destruct (as_int cores) as [k|]; [|by apply (held_apart_delete c g)].
    destruct (Z.ltb_spec END_NUMBER (current_number g)) as [Hlt|Hle];
      [by apply (held_apart_delete c g)|].
    apply Z.leb_le in Hx. pose proof BLOCK_SIZE_PER_CORE_pos as Hpos.
    destruct Hg as [Hin Hpair]. split; simpl.
    + intros c1 w [[_ <-]|[_ [_ H']%lookup_delete_Some]]%lookup_insert_Some;
        simpl; [nia|]. destruct (Hin c1 w H'). nia.
    + intros c1 c2 w1 w2 Hne
        [[-> <-]|[Hn1 [_ H1]%lookup_delete_Some]]%lookup_insert_Some
        [[? <-]|[Hn2 [_ H2]%lookup_delete_Some]]%lookup_insert_Some;
        unfold apart; simpl.
      * congruence.
      * destruct (Hin c2 w2 H2). lia.
      * destruct (Hin c1 w1 H1). lia.
      * exact (Hpair c1 c2 w1 w2 Hne H1 H2).
  - unfold locked_found. change (found (pop_assigned c g)) with (found g).
    destruct (found g); [by apply (held_apart_delete c g)|].
    number_cases message;
      by apply (held_apart_delete c g).
Qed.

Lemma counted_orderly tr :
  forallb counted tr = true → forallb orderly tr = true.
Proof.
  induction tr as [|x tr IH]; [done|]. simpl.
  intros [Hx Htr]%andb_prop. rewrite (IH Htr), andb_true_r.
  destruct x as [| c cores | | |]; try done. simpl in *.
  by destruct (as_int cores).
Qed.

(** X9. No double issue without release: in a run from the start in which
    nobody disconnects and every work request is made with an integer core
    count of at least 1, the blocks that different connections hold at the
    same time have no number in common, and every held block is non-empty
    and lies below the cursor. *)
Theorem held_blocks_are_apart (tr : list action) :
  forallb counted tr = true →
  held_apart (run tr init_globals).1.
Proof.
  intros Hall%counted_orderly. revert Hall.
  induction tr as [|x tr IH] using rev_ind; intros Hall.
  - split; simpl.
    + intros c w. by rewrite lookup_empty.
    + intros c c' w w' _. by rewrite lookup_empty.
  - rewrite forallb_app in Hall. apply andb_prop in Hall as [Htr Hx].
    simpl in Hx. rewrite andb_true_r in Hx. specialize (IH Htr).
    rewrite run_snoc. destruct (run tr init_globals) as [g1 out1].
    simpl in IH. pose proof (held_apart_exec x g1 Hx IH) as H.
    by destruct (exec x g1).
Qed.

Lemma held_blocks_are_apart_witness :
  held_apart (run three_requests init_globals).1.
Proof. apply (held_blocks_are_apart three_requests). reflexivity. Defined.

(** ** The cursor while nobody disconnects *)

Lemma orderly_run_from tr g :
  forallb orderly tr = true →
  tiling (current_number g) (issued (run tr g).2) (current_number (run tr g).1).
Proof.
  induction tr as [|x tr IH] using rev_ind; intros Hall; [constructor|].
  rewrite forallb_app in Hall. apply andb_prop in Hall as [Htr Hx].
  simpl in Hx. rewrite andb_true_r in Hx. specialize (IH Htr).
  rewrite run_snoc. destruct (run tr g) as [g1 out1]. simpl in IH.
  destruct (orderly_exec x g1 Hx) as [Hstep _].
  destruct (exec x g1) as [g2 out2]. simpl in *. rewrite issued_app.
  destruct Hstep as [[-> Hcur]|(w & -> & Hs & Hne & He & Hcur)].
  - by rewrite app_nil_r, Hcur.
  - rewrite Hcur. apply (tiling_snoc _ _ _ w IH Hs); [lia|done].
Qed.

Lemma tiling_in_range from ws to :
  tiling from ws to → ∀ w, w ∈ ws → w_end w ≤ END_NUMBER.
Proof.
  induction 1 as [|ws to w _ IH Hs He Hr]; intros w' Hw'.
  - by apply elem_of_nil in Hw'.
  - apply elem_of_app in Hw' as [Hw'| ->%list_elem_of_singleton]; eauto.
Qed.

(** X10. While nobody disconnects and every work request is made with an
    integer core count of at least 1, the cursor only moves forward, from
    any state: the blocks sent out in such a run start at or after the
    cursor the run started with, and they cover exactly the numbers between
    that cursor and the final one. A number below the cursor is handed out
    again only after a disconnect. *)
Theorem cursor_only_moves_forward (tr : list action) (g : globals) :
  forallb counted tr = true →
  current_number g ≤ current_number (run tr g).1 ∧
  (∀ w, w ∈ issued (run tr g).2 →
        current_number g ≤ w_start w ∧ w_start w ≤ w_end w ∧
        w_end w < current_number (run tr g).1) ∧
  (∀ x, current_number g ≤ x < current_number (run tr g).1 ↔
        ∃ w, w ∈ issued (run tr g).2 ∧ inside x w).
Proof.
  intros Hall%counted_orderly. pose proof (orderly_run_from tr g Hall) as Ht.
  destruct (tiling_bounds _ _ _ Ht) as [Hle Hb].
  split; [done|]. split.
  - intros w Hw. specialize (Hb w Hw). lia.
  - exact (tiling_covers _ _ _ Ht).
Qed.

Lemma cursor_only_moves_forward_witness :
  current_number (run one_gone init_globals).1
  ≤ current_number (run three_requests (run one_gone init_globals).1).1.
Proof.
  exact (proj1 (cursor_only_moves_forward three_requests
                  (run one_gone init_globals).1 eq_refl)).
Defined.

(** X11. Exhaustion lasts: once the cursor is past [END_NUMBER], a run in which
    nobody disconnects sends out no block at all and leaves the cursor
    where it is. *)
Theorem exhausted_until_a_disconnect (tr : list action) (g : globals) :
  forallb orderly tr = true →
  END_NUMBER < current_number g →
  issued (run tr g).2 = [] ∧
  current_number (run tr g).1 = current_number g.
Proof.
  intros Hall Hpast. pose proof (orderly_run_from tr g Hall) as Ht.
  destruct (tiling_bounds _ _ _ Ht) as [_ Hb].
  pose proof (tiling_in_range _ _ _ Ht) as Hr.
  destruct (issued (run tr g).2) as [|w ws] eqn:Eq.
  - split; [done|]. inversion Ht as [|ws' to' w' _ _ _ _ Hnil]; [done|].
    by destruct ws'.
  - assert (w ∈ w :: ws) as Hw by apply list_elem_of_here.
    specialize (Hb w Hw). specialize (Hr w Hw). lia.
Qed.

Lemma exhausted_until_a_disconnect_witness :
  issued (run three_requests
            {| current_number := END_NUMBER + 1; found := false;
               found_number := PNone; clients := [];
               assigned_work := ∅ |}).2 = [].
Proof.
  refine (proj1 (exhausted_until_a_disconnect three_requests _ eq_refl _)).
  simpl. lia.
Defined.

(** ** What a reclaim can do to the others *)

(** X12. A reclaim can hand out numbers that are still held. Let [c] disconnect
    holding [w] while [c'] holds a block [w'] that starts at or after the
    start of [w]. If nothing was found, the request that follows, with
    enough cores to reach the start of [w'], gets a block that contains the
    start of [w'], and [c'] still holds [w']: the same number is in the
    hands of two connections. *)
Theorem reclaim_can_issue_a_held_number (g : globals) (c c' c'' : conn)
        (w w' : work) (cores : Z) :
  found g = false →
  assigned_work g !! c = Some w →
  assigned_work g !! c' = Some w' →
  c ≠ c' → c'' ≠ c' →
  w_start w ≤ w_start w' →
  w_start w' ≤ END_NUMBER →
  w_start w' < w_start w + BLOCK_SIZE_PER_CORE * cores →
  let g2 := (locked_request_work c'' (PInt cores) (locked_cleanup c g)).1 in
  ∃ b, (locked_request_work c'' (PInt cores) (locked_cleanup c g)).2 = Block b ∧
       assigned_work g2 !! c'' = Some b ∧
       assigned_work g2 !! c' = Some w' ∧
       inside (w_start w') b.
Proof.
  intros Hf Hw Hw' Hne Hne' Hle Hend Hreach g2. subst g2.
  pose proof (locked_cleanup_holding c w g Hw) as Hcur.
  rewrite locked_request_work_in_range; [|done|rewrite Hcur; lia].
  eexists. split; [done|]. cbn [fst assigned_work].
  split; [by rewrite lookup_insert_eq|]. split.
  - rewrite lookup_insert_ne by done. simpl.
    by rewrite lookup_delete_ne.
  - unfold inside. cbn [w_start w_end]. rewrite Hcur. lia.
Qed.

Lemma reclaim_can_issue_a_held_number_witness :
  ∃ b, (locked_request_work 3%nat (PInt 2)
          (locked_cleanup 1%nat (run two_working init_globals).1)).2 = Block b ∧
       assigned_work
         (locked_request_work 3%nat (PInt 2)
            (locked_cleanup 1%nat (run two_working init_globals).1)).1
         !! 3%nat = Some b ∧
       assigned_work
         (locked_request_work 3%nat (PInt 2)
            (locked_cleanup 1%nat (run two_working init_globals).1)).1
         !! 2%nat = Some (Work 100000 199999) ∧
       inside 100000 b.
Proof.
  apply (reclaim_can_issue_a_held_number (run two_working init_globals).1
           1%nat 2%nat 3%nat (Work 0 99999) (Work 100000 199999) 2);
    try (vm_compute; reflexivity); try discriminate.
Defined.

(** X13. A reclaim can lose numbers. Let [c1] and then [c2] disconnect, holding
    [w1] and [w2]. In whatever follows without a further disconnect, every
    number handed out is at or after the start of [w2]: when [w1] starts
    below [w2], the numbers of [w1] below the start of [w2], given back by
    the first disconnect, are not handed out again. *)
Theorem reclaim_can_lose_numbers (g : globals) (c1 c2 : conn) (w1 w2 : work)
        (tr : list action) :
  assigned_work g !! c1 = Some w1 →
  assigned_work g !! c2 = Some w2 →
  c1 ≠ c2 →
  forallb orderly tr = true →
  let g' := locked_cleanup c2 (locked_cleanup c1 g) in
  current_number (locked_cleanup c1 g) = w_start w1 ∧
  current_number g' = w_start w2 ∧
  ∀ b x, b ∈ issued (run tr g').2 → inside x b → w_start w2 ≤ x.
Proof.
  intros H1 H2 Hne Hall g'.
  pose proof (locked_cleanup_holding c1 w1 g H1) as Hc1.
  assert (assigned_work (locked_cleanup c1 g) !! c2 = Some w2) as H2'.
  { simpl. by rewrite lookup_delete_ne. }
  pose proof (locked_cleanup_holding c2 w2 _ H2') as Hc2. fold g' in Hc2.
  split; [done|]. split; [done|].
  intros b x Hb [Hx _]. pose proof (orderly_run_from tr g' Hall) as Ht.
  destruct (tiling_bounds _ _ _ Ht) as [_ Hbounds].
  specialize (Hbounds b Hb). lia.
Qed.

Lemma reclaim_can_lose_numbers_witness :
  current_number
    (locked_cleanup 2%nat
       (locked_cleanup 1%nat (run two_working init_globals).1)) = 100000 ∧
  ∀ b x,
    b ∈ issued (run three_requests
                  (locked_cleanup 2%nat
                     (locked_cleanup 1%nat
                        (run two_working init_globals).1))).2 →
    inside x b → 100000 ≤ x.
Proof.
  refine (proj2
    (reclaim_can_lose_numbers (run two_working init_globals).1 1%nat 2%nat
       (Work 0 99999) (Work 100000 199999) three_requests _ _ _ _)).
  - vm_compute. reflexivity.
  - vm_compute. reflexivity.
  - discriminate.
  - reflexivity.
Defined.

(** ** The entries of a connection *)

Lemma entries_run_witness :
  entries 1%nat (run three_requests init_globals).1 = 1%nat.
Proof. exact (entries_run 1%nat three_requests init_globals eq_refl). Defined.

(** * Further properties of a session *)

Lemma kept_for_refl c' g : kept_for c' g g.
Proof. done. Qed.

Lemma kept_for_trans c' g1 g2 g3 :
  kept_for c' g1 g2 → kept_for c' g2 g3 → kept_for c' g1 g3.
Proof. intros [H1 H1'] [H2 H2']. split; congruence. Qed.

Lemma kept_for_delete c c' g g' :
  c ≠ c' →
  assigned_work g' = delete c (assigned_work g) →
  clients g' = clients g →
  kept_for c' g g'.
Proof.
  intros Hne Htbl Hcl. split; [|by rewrite Hcl].
  by rewrite Htbl, lookup_delete_ne.
Qed.

Lemma kept_for_register c c' cores g :
  c ≠ c' → kept_for c' g (locked_register c cores g).
Proof.
  intros Hne. split; [done|]. simpl.
  rewrite filter_app, filter_cons_False, filter_nil, app_nil_r; done.
Qed.

Lemma kept_for_request_work c c' cores g :
  c ≠ c' → kept_for c' g (locked_request_work c cores g).1.
Proof.
  intros Hne. unfold locked_request_work.
  destruct (found (pop_assigned c g)); [by apply (kept_for_delete c)|].
  destruct (as_int cores); [|by apply (kept_for_delete c)].
  destruct (_ <? _); [by apply (kept_for_delete c)|].
  split; [|done]. simpl.
  by rewrite lookup_insert_ne, lookup_delete_ne.
Qed.

Lemma kept_for_found c c' message g :
  c ≠ c' → kept_for c' g (locked_found c message g).1.1.
Proof.
  intros Hne. unfold locked_found.
  destruct (found (pop_assigned c g)); [by apply (kept_for_delete c)|].
  number_cases message; by apply (kept_for_delete c).
Qed.

Lemma kept_for_cleanup c c' g :
  c ≠ c' → kept_for c' g (locked_cleanup c g).
Proof.
  intros Hne. split; simpl; [by rewrite lookup_delete_ne|].
  rewrite list_filter_filter. apply list_filter_iff.
  intros cl. split; [by intros [? ?]|]. intros <-. split; [done|congruence].
Qed.

Lemma entries_after_cleanup c g : entries c (locked_cleanup c g) = 0%nat.
Proof.
  unfold entries, locked_cleanup. cbn [clients].
  induction (clients g) as [|cl l IH]; [done|].
  rewrite filter_cons. destruct (decide (c_conn cl ≠ c)) as [Hne|_]; [|exact IH].
  rewrite filter_cons. by destruct (decide (c_conn cl = c)).
Qed.

Section SessionFootprint.

Variable json_loads : str → loads_result.
Variable c : conn.
Variable a : addr.

Lemma handle_message_kept c' message client_cores g :
  c ≠ c' → kept_for c' g (o_glob (handle_message c a message client_cores g)).
Proof.
  intros Hne. unfold handle_message.
  destruct (getitem message (lit "type")) as [e|type]; [done|].
  destruct (eq_lit type "register").
  { destruct (getitem message (lit "cores")) as [e|cores]; [done|].
    destruct (print_ok cores); by apply kept_for_register. }
  destruct (eq_lit type "request_work").
  { pose proof (kept_for_request_work c c' client_cores g Hne) as H.
    by destruct (locked_request_work c client_cores g). }
  destruct (eq_lit type "found"); [|done].
  pose proof (kept_for_found c c' message g Hne) as H. unfold handle_found.
  by destruct (locked_found c message g) as [[g' out] [e|]].
Qed.

Lemma handle_frames_kept c' frames client_cores g :
  c ≠ c' →
  kept_for c' g (o_glob (handle_frames json_loads c a frames client_cores g)).
Proof.
  intros Hne. revert client_cores g.
  induction frames as [|frame frames IH]; intros client_cores g; [done|].
  cbn [handle_frames]. destruct (json_loads frame) as [message| |].
  - pose proof (handle_message_kept c' message client_cores g Hne) as H.
    destruct (o_raised (handle_message c a message client_cores g));
      [done|]. exact (kept_for_trans _ _ _ _ H (IH _ _)).
  - apply IH.
  - done.
Qed.

Lemma recv_loop_kept c' chunks buffer client_cores g :
  c ≠ c' →
  kept_for c' g
    (o_glob (recv_loop json_loads c a chunks buffer client_cores g)).
Proof.
  intros Hne. revert buffer client_cores g.
  induction chunks as [|chunk chunks IH]; intros buffer client_cores g;
    [done|].
  cbn [recv_loop]. destruct (decode chunk) as [[|d ds]|]; [done| |done].
  unfold drain. destruct (split_frames (buffer ++ d :: ds)) as [frames rest].
  pose proof (handle_frames_kept c' frames client_cores g Hne) as H.
  destruct (o_raised (handle_frames json_loads c a frames client_cores g));
    [done|]. exact (kept_for_trans _ _ _ _ H (IH _ _ _)).
Qed.

(** X1. The footprint of a session. Whatever bytes arrive and however the
    session ends (the peer closes, a chunk does not decode, the handler
    raises), when [handle_client] returns its connection has no block in
    the table and no entry in [clients], the last things it did were to
    close the socket and print the goodbye, and every other connection has
    the table entry and the [clients] entries it had before. *)
Theorem session_footprint (chunks : list (list Byte.byte)) (g : globals) :
  let g' := (handle_client json_loads c a chunks g).1 in
  assigned_work g' !! c = None ∧
  entries c g' = 0%nat ∧
  (∃ out, (handle_client json_loads c a chunks g).2 =
          out ++ [Close c; Print (LogDisconnected a)]) ∧
  ∀ c', c' ≠ c → kept_for c' g g'.
Proof.
  unfold handle_client. cbn [fst snd].
  set (o := recv_loop json_loads c a chunks [] (PInt 1) g).
  split; [apply lookup_delete_eq|]. split.
  { apply entries_after_cleanup. }
  split.
  { exists ([Print (LogConnected a)] ++ o_out o
             ++ match o_raised o with
                | Some e => [Print (LogError a e)]
                | None => []
                end).
    by rewrite <- !app_assoc. }
  intros c' Hne.
  apply (kept_for_trans _ _ (o_glob o)).
  - apply recv_loop_kept. congruence.
  - apply kept_for_cleanup. congruence.
Qed.


(** The inner loop on a buffer that starts with a frame [json.loads]
    accepts: the message is handled; if that raises the loop is left, else
    it goes on with the rest. *)
Lemma drain_loaded (next : str → pyval → globals → outcome)
      (frame rest : str) (message client_cores : pyval) (g : globals) :
  LF ∉ frame →
  json_loads frame = Loaded message →
  drain json_loads c a next (frame ++ LF :: rest) client_cores g =
  let o := handle_message c a message client_cores g in
  match o_raised o with
  | Some _ => o
  | None =>
      after (o_out o) (drain json_loads c a next rest (o_cores o) (o_glob o))
  end.
Proof.
  intros Hframe Hl. unfold drain. rewrite (split_frames_frame _ _ Hframe).
  destruct (split_frames rest) as [frames buffer']. cbn [fst snd handle_frames].
  rewrite Hl. cbv zeta.
  destruct (o_raised (handle_message c a message client_cores g)) eqn:Er;
    [by rewrite Er|]. cbn [o_raised after o_cores o_glob o_out].
  destruct (o_raised (handle_frames json_loads c a frames _ _)); [done|].
  by rewrite after_after.
Qed.

(** X3. A message of a type the server does not know is skipped in silence.
    Let a chunk complete a frame that [json.loads] accepts and whose
    ['type'] is none of ['register'], ['request_work'], ['found']: nothing
    is printed or sent and no global changes; the session goes on with the
    rest of the buffer and the next chunks. *)
Theorem unknown_type_is_skipped
        (chunk : list Byte.byte) (chunks : list (list Byte.byte))
        (buffer data frame rest : str) (message type client_cores : pyval)
        (g : globals) :
  decode chunk = Some data →
  data ≠ [] →
  buffer ++ data = frame ++ LF :: rest →
  LF ∉ frame →
  json_loads frame = Loaded message →
  getitem message (lit "type") = inr type →
  eq_lit type "register" = false →
  eq_lit type "request_work" = false →
  eq_lit type "found" = false →
  recv_loop json_loads c a (chunk :: chunks) buffer client_cores g =
  drain json_loads c a (recv_loop json_loads c a chunks) rest client_cores g.
Proof.
  intros Hd Hne Hcut Hframe Hl Ht H1 H2 H3. cbn [recv_loop]. rewrite Hd.
  destruct data as [|d ds]; [done|]. rewrite Hcut.
  rewrite (drain_loaded _ _ _ message _ _ Hframe Hl).
  unfold handle_message. rewrite Ht, H1, H2, H3. cbn [o_raised o_out].
  by rewrite after_nil.
Qed.

End SessionFootprint.

Lemma unknown_type_is_skipped_witness :
  recv_loop more_loads 1%nat peer
    [wire "ng'}" ++ [Byte.x0a] ++ wire "{'type':'request_work'}" ++ [Byte.x0a]]
    (text "{'type':'pi") (PInt 1) init_globals =
  drain more_loads 1%nat peer (recv_loop more_loads 1%nat peer [])
        (text "{'type':'request_work'}" ++ [LF]) (PInt 1) init_globals.
Proof.
  apply (unknown_type_is_skipped more_loads 1%nat peer _ []
           (text "{'type':'pi")
           (text "ng'}" ++ LF :: text "{'type':'request_work'}" ++ [LF])
           (text "{'type':'ping'}") _
           (PDict [(lit "type", PStr (lit "ping"))]) (PStr (lit "ping")));
    try (vm_compute; reflexivity).
  - discriminate.
  - apply (bool_decide_unpack _). vm_compute. exact I.
Defined.

(** * Further properties of the wire *)

(** ** Frames *)

Lemma split_frames_joined (frames : list str) (rest : str) :
  Forall (fun frame => LF ∉ frame) frames →
  LF ∉ rest →
  split_frames (concat (map (fun frame => frame ++ [LF]) frames) ++ rest) =
  (frames, rest).
Proof.
  intros Hall Hrest. induction Hall as [|frame frames Hf _ IH].
  - by apply split_frames_rest.
  - cbn [map concat]. rewrite <- !app_assoc. cbn [app].
    rewrite (split_frames_frame _ _ Hf), IH. done.
Qed.

(** X15. The inner loop is the inverse of joining frames with line feeds:
    [buffer] splits into [frames] and [rest] exactly when it is the frames,
    each followed by a line feed, and then [rest], with no line feed inside
    a frame or inside [rest]. Nothing of the buffer is lost, invented or
    reordered. *)
Theorem split_frames_inverts_join (buffer : str) (frames : list str)
        (rest : str) :
  split_frames buffer = (frames, rest) ↔
  buffer = concat (map (fun frame => frame ++ [LF]) frames) ++ rest ∧
  Forall (fun frame => LF ∉ frame) frames ∧
  LF ∉ rest.
Proof.
  split.
  - intros Hs.
    pose proof (split_frames_join buffer) as Hj.
    pose proof (split_frames_frames buffer) as Hf.
    pose proof (split_frames_left buffer) as Hl.
    rewrite Hs in Hj, Hf, Hl. done.
  - intros (-> & Hf & Hr). by apply split_frames_joined.
Qed.

(** ** Bytes *)

Lemma in_range_true lo hi b :
  in_range lo hi b = true ↔ (lo ≤ b ≤ hi)%N.
Proof.
  unfold in_range. rewrite andb_true_iff, !N.leb_le. done.
Qed.

Lemma in_range_false lo hi b :
  in_range lo hi b = false ↔ (b < lo ∨ hi < b)%N.
Proof.
  unfold in_range. rewrite andb_false_iff, !N.leb_gt. done.
Qed.

Ltac range_facts :=
  repeat match goal with
         | H : in_range _ _ _ = true |- _ => apply in_range_true in H
         | H : in_range _ _ _ = false |- _ => apply in_range_false in H
         | H : (_ <? _)%N = true |- _ => apply N.ltb_lt in H
         | H : (_ <? _)%N = false |- _ => apply N.ltb_ge in H
         | H : (_ =? _)%N = true |- _ => apply N.eqb_eq in H
         | H : (_ =? _)%N = false |- _ => apply N.eqb_neq in H
         end.

Ltac by_division := zify; Z.to_euclidean_division_equations; lia.

Lemma utf8_decode_encode_char (ch : N) (bs rest : list N) :
  utf8_encode_char ch = Some bs →
  utf8_decode (bs ++ rest) = cons ch <$> utf8_decode rest.
Proof.
  unfold utf8_encode_char.
  destruct (ch <? 128)%N eqn:H1.
  { intros [= <-]. cbn [app utf8_decode]. by rewrite H1. }
  destruct (ch <? 2048)%N eqn:H2.
  { intros [= <-]. cbn [app utf8_decode]. range_facts.
    rewrite (proj2 (N.ltb_ge _ _)) by by_division.
    rewrite (proj2 (in_range_true _ _ _)) by by_division.
    rewrite (proj2 (in_range_true _ _ _)) by by_division.
    do 2 f_equal. by_division. }
  destruct (ch <? 65536)%N eqn:H3.
  { destruct (in_range 55296 57343 ch) eqn:Hs; [done|].
    intros [= <-]. cbn [app utf8_decode]. range_facts.
    rewrite (proj2 (N.ltb_ge _ _)) by by_division.
    rewrite (proj2 (in_range_false _ _ _)) by by_division.
    rewrite (proj2 (in_range_true 224 239 _)) by by_division.
    assert (in_range (if (224 + ch / 4096 =? 224)%N then 160 else 128)
                     (if (224 + ch / 4096 =? 237)%N then 159 else 191)
                     (128 + ch / 64 mod 64) = true) as ->.
    { apply in_range_true.
      destruct (N.eqb_spec (224 + ch / 4096) 224);
        destruct (N.eqb_spec (224 + ch / 4096) 237); by_division. }
    rewrite (proj2 (in_range_true _ _ _)) by by_division.
    cbn [andb]. do 2 f_equal. by_division. }
  destruct (ch <? 1114112)%N eqn:H4; [|done].
  intros [= <-]. cbn [app utf8_decode]. range_facts.
  rewrite (proj2 (N.ltb_ge _ _)) by by_division.
  rewrite (proj2 (in_range_false 194 223 _)) by by_division.
  rewrite (proj2 (in_range_false 224 239 _)) by by_division.
  rewrite (proj2 (in_range_true 240 244 _)) by by_division.
  assert (in_range (if (240 + ch / 262144 =? 240)%N then 144 else 128)
                   (if (240 + ch / 262144 =? 244)%N then 143 else 191)
                   (128 + ch / 4096 mod 64) = true) as ->.
  { apply in_range_true.
    destruct (N.eqb_spec (240 + ch / 262144) 240);
      destruct (N.eqb_spec (240 + ch / 262144) 244); by_division. }
  rewrite (proj2 (in_range_true _ _ (128 + ch / 64 mod 64)%N)) by by_division.
  rewrite (proj2 (in_range_true _ _ (128 + ch mod 64)%N)) by by_division.
  cbn [andb]. do 2 f_equal. by_division.
Qed.

Lemma utf8_decode_encode (s : str) (bs : list N) :
  utf8_encode s = Some bs → utf8_decode bs = Some s.
Proof.
  revert bs. induction s as [|ch s IH]; intros bs; [by intros [= <-]|].
  cbn [utf8_encode].
  destruct (utf8_encode_char ch) as [b|] eqn:Ec; [|done].
  destruct (utf8_encode s) as [bs'|]; [|done].
  intros [= <-]. rewrite (utf8_decode_encode_char _ _ _ Ec).
  by rewrite (IH bs' eq_refl).
Qed.

Lemma mapM_of_N (ns : list N) (bytes : list Byte.byte) :
  mapM Byte.of_N ns = Some bytes → map Byte.to_N bytes = ns.
Proof.
  intros H. apply mapM_Some_1 in H.
  induction H as [|n b ns bytes Hb _ IH]; [done|].
  cbn [map]. by rewrite IH, (Byte.to_of_N _ Hb).
Qed.

Lemma decode_encode (s : str) (bytes : list Byte.byte) :
  encode s = Some bytes → decode bytes = Some s.
Proof.
  unfold encode, decode.
  destruct (utf8_encode s) as [ns|] eqn:En; [|done].
  intros ->%mapM_of_N. by apply utf8_decode_encode.
Qed.

(** X16. What [encode] writes (line 145), [decode] reads back (line 39): when a
    text can be encoded, decoding its bytes gives the text again. *)
Theorem encode_then_decode (s : str) (bytes : list Byte.byte) :
  encode s = Some bytes → decode bytes = Some s.
Proof. apply decode_encode. Qed.

Lemma encode_then_decode_witness :
  ∃ bytes, encode [104%N; 233%N; 8364%N; 128512%N] = Some bytes ∧
           decode bytes = Some [104%N; 233%N; 8364%N; 128512%N].
Proof.
  eexists. split; [vm_compute; reflexivity|].
  apply (encode_then_decode [104%N; 233%N; 8364%N; 128512%N]).
  vm_compute. reflexivity.
Defined.

(** ** What the workers receive *)

Lemma sent_to_send c c' message out :
  sent_to c (Send c' message :: out) =
  if decide (c' = c) then message :: sent_to c out else sent_to c out.
Proof. unfold sent_to. simpl. by destruct (decide (c' = c)). Qed.

Section SendingProperties.

Variable json_dumps : response → str.
Variable sendall : conn → list Byte.byte → bool.

Lemma written_to_other c c' message ds :
  c' ≠ c →
  written_to c (send_message json_dumps sendall c' message :: ds) =
  written_to c ds.
Proof.
  intros Hne. unfold written_to, send_message.
  destruct (encode (json_dumps message ++ [LF])) as [bytes|]; [|done].
  destruct (sendall c' bytes); [|done].
  simpl. by destruct (decide (c' = c)).
Qed.

Lemma written_to_same c message bytes ds :
  encode (json_dumps message ++ [LF]) = Some bytes →
  sendall c bytes = true →
  written_to c (send_message json_dumps sendall c message :: ds) =
  bytes ++ written_to c ds.
Proof.
  intros He Hs. unfold written_to, send_message. rewrite He, Hs.
  simpl. by destruct (decide (c = c)).
Qed.

(** X17. The stream a worker receives. Take everything a run or a session sent
    to [c], and let each of these messages go through: its JSON text has no
    line feed, can be encoded, and [sendall] takes the bytes. Then the
    bytes written to the socket of [c], read back with [decode] and the
    frame loop of lines 44-45, are exactly the JSON texts of the messages,
    in the order they were sent, one frame each, with nothing left over. *)
Theorem sent_stream_reads_back (c : conn) (out : list effect) :
  Forall (fun message =>
            (LF ∉ json_dumps message) ∧
            ∃ bytes, encode (json_dumps message ++ [LF]) = Some bytes ∧
                     sendall c bytes = true)
         (sent_to c out) →
  ∃ data,
    decode (written_to c (deliveries json_dumps sendall out)) = Some data ∧
    split_frames data = (map json_dumps (sent_to c out), []).
Proof.
  intros Hall.
  exists (concat (map (fun frame => frame ++ [LF])
                      (map json_dumps (sent_to c out)))).
  split.
  - induction out as [|e out IH]; [done|].
    destruct e as [c' message|l|c']; try (by apply IH).
    rewrite sent_to_send in *.
    change (deliveries json_dumps sendall (Send c' message :: out))
      with (send_message json_dumps sendall c' message
            :: deliveries json_dumps sendall out).
    destruct (decide (c' = c)) as [->|Hne].
    + apply Forall_cons in Hall as [(_ & bytes & He & Hs) Hall].
      rewrite (written_to_same _ _ _ _ He Hs). cbn [map concat].
      apply decode_app; [by apply decode_encode|by apply IH].
    + rewrite written_to_other by done. by apply IH.
  - rewrite <- (app_nil_r (concat _)). apply split_frames_joined.
    + apply Forall_fmap. eapply Forall_impl; [exact Hall|].
      by intros message [H _].
    + apply not_elem_of_nil.
Qed.


End SendingProperties.

Lemma sent_stream_reads_back_witness :
  ∃ data,
    decode (written_to 1%nat
              (deliveries example_dumps (fun _ _ => true)
                 (run two_reports init_globals).2)) = Some data ∧
    split_frames data =
      (map example_dumps (sent_to 1%nat (run two_reports init_globals).2), []).
Proof.
  apply (sent_stream_reads_back example_dumps (fun _ _ => true) 1%nat
           (run two_reports init_globals).2).
  repeat constructor.
  - apply (bool_decide_unpack _). vm_compute. exact I.
  - eexists. split; [vm_compute; reflexivity|reflexivity].
Defined.


(** * Properties of the listener *)

Lemma tick_server_found t s :
  found (srv_glob s) = true → found (srv_glob (tick_server t s)) = true.
Proof.
  intros Hf. destruct t as [|[c a| |]| |x], (srv_listener s) eqn:Hl;
    unfold tick_server; rewrite ?Hl, ?Hf; try done;
    cbn [srv_glob]; by apply found_stays.
Qed.


Lemma tick_server_may_start t s :
  found (srv_glob s) = true →
  (may_start (tick_server t s) ≤ may_start s)%nat.
Proof.
  intros Hf. unfold may_start, tick_server.
  destruct t as [|[c a| |]| |x], (srv_listener s) eqn:Hl;
    rewrite ?Hf; cbn [srv_threads srv_listener shut_down listener_at];
    rewrite ?Hl, ?length_app; simpl; lia.
Qed.

(** X19. After the match at most one more worker gets in. From a state where
    [found] is set, whatever happens next, the main thread starts at most
    one more session thread, and only if an [accept] was under way when the
    flag was set; if it was at the test of line 166 it starts none. *)
Theorem at_most_one_late_arrival (ts : list tick) (s : server) :
  found (srv_glob s) = true →
  (length (srv_threads (ticks ts s))
   ≤ length (srv_threads s)
     + match srv_listener s with InAccept => 1 | _ => 0 end)%nat.
Proof.
  intros Hf. change (_ + _)%nat with (may_start s).
  assert (may_start (ticks ts s) ≤ may_start s)%nat as H.
  { revert s Hf. induction ts as [|t ts IH]; intros s Hf; [done|].
    cbn [ticks]. etrans; [apply IH; by apply tick_server_found|].
    by apply tick_server_may_start. }
  unfold may_start in H at 1. lia.
Qed.

Lemma at_most_one_late_arrival_witness :
  (length (srv_threads (ticks late_arrivals server_start)) ≤ 1 + 1)%nat.
Proof.
  exact (at_most_one_late_arrival
           [Accept (Connection 2%nat peer); Test; Accept (Connection 3%nat peer)]
           (ticks [Test; Accept (Connection 1%nat peer); Test;
                   Region (AFound 1%nat (found_message (PInt 42)))]
                  server_start)
           eq_refl).
Defined.



